(** * The quickfix input of bento: shared engine handles and the event bridge

    A shallow embedding of [internal/impl/quickfix/fixapp.go] and
    [internal/impl/quickfix/input.go].

    The Go code runs under mutexes ([fixappstorelock], [q.mut]); the
    embedding is the lock-serialised behaviour: every function is a
    transformer of one explicit [World] holding the package-level map
    [fixappstore], the objects reachable through pointers ([*fixapp],
    channels, [*quickfix.Message]) and a log of the calls made into the
    protocol engine and onto channels.  Pointers are indices into the
    object lists, so aliasing is visible. *)

From Stdlib Require Import ZArith String List Lia Strings.Byte.
From stdpp Require Import gmap strings list fin_maps.

Local Open Scope string_scope.

(** ** Go basics *)

(** Go's [error] values are modelled by their message. *)
Definition error : Type := string.

Inductive result (A : Type) : Type :=
| Ok (a : A)
| Err (e : error).
Arguments Ok {A} a.
Arguments Err {A} e.

(** Go's [int] on a 64-bit platform: two's complement wrap-around. *)
Definition int_min : Z := (- 2 ^ 63)%Z.
Definition int_max : Z := (2 ^ 63 - 1)%Z.
Definition int_wrap (z : Z) : Z := ((z + 2 ^ 63) mod 2 ^ 64 - 2 ^ 63)%Z.

Definition int_incr (z : Z) : Z := int_wrap (z + 1).
Definition int_decr (z : Z) : Z := int_wrap (z - 1).

(** An opened file: [io.ReadAll] returns the bytes read so far together
    with the first read error, if there is one. *)
Record File : Type := {
  file_bytes : list byte;
  file_fault : option (nat * error)
}.

Definition io_ReadAll (c : File) : list byte * option error :=
  match file_fault c with
  | None => (file_bytes c, None)
  | Some (n, e) => (take n (file_bytes c), Some e)
  end.

(** ** What the code calls outside the repository

    The quickfix engine, the data-dictionary parser, the operating
    system and the hash are libraries; their types and results are
    parameters of the development. *)

(** Calls that reach the engine or a channel, in program order. *)
Inductive Effect : Type :=
| AcceptorStart (a : nat)
| InitiatorStart (i : nat)
| AcceptorStop (a : nat)
| InitiatorStop (i : nat)
| ChanMake (c : nat)
| ChanClose (c : nat).

#[global] Instance Effect_eq_dec : EqDecision Effect.
Proof. solve_decision. Defined.

(** The factories handed to the engine, over the type of settings. *)
Inductive MessageStoreFactoryOf (S : Type) : Type :=
| MemoryStoreFactory
| FileStoreFactory (s : S).
Arguments MemoryStoreFactory {S}.
Arguments FileStoreFactory {S} s.

Inductive LogFactoryOf (S : Type) : Type :=
| FileLogFactory (s : S)
| ScreenLogFactory.
Arguments FileLogFactory {S} s.
Arguments ScreenLogFactory {S}.

Class External : Type := {
  (* quickfix.SessionID, its zero value and its String method *)
  SessionID : Type;
  SessionID_eq_dec :: EqDecision SessionID;
  SessionID_countable :: Countable SessionID;
  SessionID_zero : SessionID;
  SessionID_String : SessionID -> string;
  (* *quickfix.Settings and s.SessionSettings()[id]; a session's settings
     are its key/value pairs *)
  Settings : Type;
  Settings_SessionSettings : Settings -> SessionID -> option (gmap string string);
  (* the contents of a quickfix.Message, those of quickfix.NewMessage(),
     and Message.ToJSON on a possibly nil receiver (None: runtime fault) *)
  MessageData : Type;
  NewMessage_data : MessageData;
  DataDictionary : Type;
  Message_ToJSON : option MessageData -> bool -> option DataDictionary -> option (list byte);
  datadictionary_Parse : string -> result DataDictionary;
  (* crypto/sha256, path/filepath, os *)
  sha256_Sum : list byte -> list byte;
  filepath_Abs : string -> result string;
  os_Open : string -> result File;
  quickfix_ParseSettings : File -> result Settings;
  (* log/file.NewLogFactory *)
  filelog_NewLogFactory : Settings -> option error;
  (* engine construction and start; the outcome of a start may depend
     on the calls made so far *)
  quickfix_NewAcceptor :
    MessageStoreFactoryOf Settings -> Settings -> LogFactoryOf Settings -> option error;
  quickfix_NewInitiator :
    MessageStoreFactoryOf Settings -> Settings -> LogFactoryOf Settings -> option error;
  Acceptor_Start : nat -> list Effect -> option error;
  Initiator_Start : nat -> list Effect -> option error
}.

(** ** fixapp.go *)

Definition acceptorType : string := "acceptor".
Definition initiatorType : string := "initiator".

Definition logFactoryFile : string := "file".
Definition logFactoryScreen : string := "screen".

Definition messageStoreMem : string := "memory".
Definition messageStoreFile : string := "file".

Inductive fixappState : Type :=
| fixappstatestarted
| fixappstatestopped.

#[global] Instance fixappState_eq_dec : EqDecision fixappState.
Proof. solve_decision. Defined.

Record fixapp : Type := {
  chksum : list byte;
  acceptor : option nat;
  initiator : option nat;
  state : fixappState;
  refcount : Z
}.

Definition with_engines (a i : option nat) (f : fixapp) : fixapp :=
  {| chksum := chksum f; acceptor := a; initiator := i;
     state := state f; refcount := refcount f |}.
Definition with_state (s : fixappState) (f : fixapp) : fixapp :=
  {| chksum := chksum f; acceptor := acceptor f; initiator := initiator f;
     state := s; refcount := refcount f |}.
Definition with_refcount (n : Z) (f : fixapp) : fixapp :=
  {| chksum := chksum f; acceptor := acceptor f; initiator := initiator f;
     state := state f; refcount := n |}.

(** The engine call that stopping handle [h] makes: its acceptor's if it
    has one, else its initiator's, else none. *)
Definition engine_stop_of (h : fixapp) : option Effect :=
  match acceptor h, initiator h with
  | Some a, _ => Some (AcceptorStop a)
  | None, Some i => Some (InitiatorStop i)
  | None, None => None
  end.

Definition is_engine_stop (e : Effect) : bool :=
  match e with
  | AcceptorStop _ | InitiatorStop _ => true
  | _ => false
  end.

Section Quickfix.
Context `{Ext : External}.

Definition MessageStoreFactory : Type := MessageStoreFactoryOf Settings.
Definition LogFactory : Type := LogFactoryOf Settings.

Inductive quickfixEvent : Type := mkEvent {
  sessionId : SessionID;
  eventType : string;
  message : option nat
}.

(** An unbuffered channel: a sender parks with its value until a receiver
    takes it; [sendq] holds the values of the parked senders, oldest
    first. *)
Record chan : Type := {
  closed : bool;
  sendq : list quickfixEvent
}.

Record World : Type := {
  fixappstore : gmap string nat;
  fixapps : list fixapp;
  engines : nat;
  chans : list chan;
  messages : list MessageData;
  trace : list Effect
}.

Definition set_fixappstore (m : gmap string nat) (w : World) : World :=
  {| fixappstore := m; fixapps := fixapps w; engines := engines w;
     chans := chans w; messages := messages w; trace := trace w |}.
Definition set_fixapps (l : list fixapp) (w : World) : World :=
  {| fixappstore := fixappstore w; fixapps := l; engines := engines w;
     chans := chans w; messages := messages w; trace := trace w |}.
Definition set_engines (n : nat) (w : World) : World :=
  {| fixappstore := fixappstore w; fixapps := fixapps w; engines := n;
     chans := chans w; messages := messages w; trace := trace w |}.
Definition set_chans (l : list chan) (w : World) : World :=
  {| fixappstore := fixappstore w; fixapps := fixapps w; engines := engines w;
     chans := l; messages := messages w; trace := trace w |}.
Definition set_messages (l : list MessageData) (w : World) : World :=
  {| fixappstore := fixappstore w; fixapps := fixapps w; engines := engines w;
     chans := chans w; messages := l; trace := trace w |}.
Definition emit (e : Effect) (w : World) : World :=
  {| fixappstore := fixappstore w; fixapps := fixapps w; engines := engines w;
     chans := chans w; messages := messages w; trace := trace w ++ [e] |}.

(** The outcome of running a function: it returns, it panics, or its
    goroutine is parked with nothing to wake it. *)
Inductive Res (A : Type) : Type :=
| Done (a : A) (w : World)
| Panic (why : string) (w : World)
| Blocked (w : World).
Arguments Done {A} a w.
Arguments Panic {A} why w.
Arguments Blocked {A} w.

Definition M (A : Type) : Type := World -> Res A.

Definition ret {A} (a : A) : M A := fun w => Done a w.
Definition bind {A B} (m : M A) (k : A -> M B) : M B :=
  fun w => match m w with
           | Done a w' => k a w'
           | Panic why w' => Panic why w'
           | Blocked w' => Blocked w'
           end.

Definition nil_dereference : string :=
  "invalid memory address or nil pointer dereference".

Definition GetSettings (configFile : string) : result Settings :=
  match filepath_Abs configFile with
  | Err e => Err e
  | Ok configPath =>
    match os_Open configPath with
    | Err e => Err ("failed to open config file: " ++ e)
    | Ok c =>
      match quickfix_ParseSettings c with
      | Err e => Err ("failed to parse settings: " ++ e)
      | Ok s => Ok s
      end
    end
  end.

(** The error of [io.ReadAll] is assigned and never looked at.  The file
    is read again at every call; [os_Open] is what a read gives while a
    statement runs, and statements that span calls between which the file
    may change take the checksum of each call as a hypothesis. *)
Definition createChecksum (configPath : string) : result (list byte) :=
  match os_Open configPath with
  | Err e => Err ("failed to open config file: " ++ e)
  | Ok c =>
    let '(t, _) := io_ReadAll c in
    Ok (sha256_Sum t)
  end.

Definition createMessageStoreFactory (t : string) (s : Settings)
  : result MessageStoreFactory :=
  if decide (t = messageStoreMem) then Ok MemoryStoreFactory
  else if decide (t = messageStoreFile) then Ok (FileStoreFactory s)
  else Err ("cannot create message store of type " ++ t).

Definition createLogFactory (t : string) (s : Settings) : result LogFactory :=
  if decide (t = logFactoryFile) then
    match filelog_NewLogFactory s with
    | Some e => Err e
    | None => Ok (FileLogFactory s)
    end
  else if decide (t = logFactoryScreen) then Ok ScreenLogFactory
  else Err ("cannot create logger of type " ++ t).

Definition new_fixapp (chk : list byte) : fixapp :=
  {| chksum := chk; acceptor := None; initiator := None;
     state := fixappstatestopped; refcount := 0 |}.

(** [f := &fixapp{...}] is allocated before the settings are read; on the
    error returns it is left unreachable.  The freshly built engine gets
    the next engine identity.  [app] is the callback receiver handed to
    the engine.  A constructor is taken by its result alone: the calls it
    makes into [app] while it builds the sessions are not part of this
    function, so what is stated of the path through a constructor holds
    for a constructor that returns without calling back. *)
Definition GetOrCreateFixApp {App : Type}
    (appType msgStore logType : string) (app : App) (configFile : string)
  : M (result nat) := fun w =>
  match createChecksum configFile with
  | Err e => Done (Err e) w
  | Ok chk =>
    match fixappstore w !! string_of_list_byte chk with
    | Some a => Done (Ok a) w
    | None =>
      let f := length (fixapps w) in
      let w := set_fixapps (fixapps w ++ [new_fixapp chk]) w in
      match GetSettings configFile with
      | Err e => Done (Err e) w
      | Ok s =>
        match createMessageStoreFactory msgStore s with
        | Err e => Done (Err e) w
        | Ok store =>
          match createLogFactory logType s with
          | Err e => Done (Err e) w
          | Ok log =>
            let built : result World :=
              if decide (appType = acceptorType) then
                match quickfix_NewAcceptor store s log with
                | Some e => Err e
                | None =>
                  Ok (set_engines (S (engines w))
                        (set_fixapps
                           (alter (with_engines (Some (engines w)) None) f (fixapps w)) w))
                end
              else if decide (appType = initiatorType) then
                match quickfix_NewInitiator store s log with
                | Some e => Err e
                | None =>
                  Ok (set_engines (S (engines w))
                        (set_fixapps
                           (alter (with_engines None (Some (engines w))) f (fixapps w)) w))
                end
              else Ok w in
            match built with
            | Err e => Done (Err e) w
            | Ok w =>
              Done (Ok f)
                   (set_fixappstore
                      (<[string_of_list_byte chk := f]> (fixappstore w)) w)
            end
          end
        end
      end
    end
  end.

(** [f.Start()] on the handle at [f]. *)
Definition Start (f : nat) : M (option error) := fun w =>
  match fixapps w !! f with
  | None => Panic nil_dereference w
  | Some h =>
    let '(err, h, w) :=
      if decide (state h <> fixappstatestarted) then
        let '(err, w) :=
          match acceptor h, initiator h with
          | Some a, _ => (Acceptor_Start a (trace w), emit (AcceptorStart a) w)
          | None, Some i => (Initiator_Start i (trace w), emit (InitiatorStart i) w)
          | None, None => (Some "cannot start uninitialized fixapp", w)
          end in
        (err, with_state fixappstatestarted h, w)
      else (None, h, w) in
    let h := with_refcount (int_incr (refcount h)) h in
    Done err (set_fixapps (<[f := h]> (fixapps w)) w)
  end.

(** [f.Stop()] on the handle at [f]. *)
Definition Stop (f : nat) : M unit := fun w =>
  match fixapps w !! f with
  | None => Panic nil_dereference w
  | Some h =>
    if decide (state h = fixappstatestopped \/ (refcount h > 1)%Z) then
      Done tt (set_fixapps (<[f := with_refcount (int_decr (refcount h)) h]> (fixapps w)) w)
    else
      let w :=
        match acceptor h, initiator h with
        | Some a, _ => emit (AcceptorStop a) w
        | None, Some i => emit (InitiatorStop i) w
        | None, None => w
        end in
      Done tt (set_fixapps (<[f := with_engines None None h]> (fixapps w)) w)
  end.

(** ** input.go *)

Record quickfixInput : Type := {
  appType : string;
  storeType : string;
  logType : string;
  config : string;
  settings : Settings;
  (* a Go map is nil (None) until it is made *)
  appDictionaries : option (gmap SessionID DataDictionary);
  transportDictionaries : option (gmap SessionID DataDictionary);
  (* a channel value is nil (None) or points to a channel *)
  eventChan : option nat
}.

Definition with_eventChan (c : option nat) (q : quickfixInput) : quickfixInput :=
  {| appType := appType q; storeType := storeType q; logType := logType q;
     config := config q; settings := settings q;
     appDictionaries := appDictionaries q;
     transportDictionaries := transportDictionaries q;
     eventChan := c |}.
Definition with_appDictionaries (m : option (gmap SessionID DataDictionary))
    (q : quickfixInput) : quickfixInput :=
  {| appType := appType q; storeType := storeType q; logType := logType q;
     config := config q; settings := settings q;
     appDictionaries := m;
     transportDictionaries := transportDictionaries q;
     eventChan := eventChan q |}.
Definition with_transportDictionaries (m : option (gmap SessionID DataDictionary))
    (q : quickfixInput) : quickfixInput :=
  {| appType := appType q; storeType := storeType q; logType := logType q;
     config := config q; settings := settings q;
     appDictionaries := appDictionaries q;
     transportDictionaries := m;
     eventChan := eventChan q |}.

Definition createEvent : string := "create".
Definition logonEvent : string := "logon".
Definition logoutEvent : string := "logout".
Definition toAdminEvent : string := "to_admin".
Definition toAppEvent : string := "to_app".
Definition fromAdminEvent : string := "from_admin".
Definition fromAppEvent : string := "from_app".

Definition quickfixInputApplicationType : string := "application_type".
Definition quickfixInputConfigFile : string := "config_file".
Definition quickfixInputMsgStoreType : string := "message_store_type".
Definition quickfixInputLoggerType : string := "logger_type".

(** The struct literal of [NewQuickfixEvent] sets [eventType] and
    [message]; [sessionId] keeps its zero value and [id] is not used.
    [quickfix.NewMessage] allocates a message, [CopyInto] gives its
    destination the fields of its receiver.  The contents of a message are
    its fields as the struct holds them; which bytes two messages share
    behind those fields is not represented, so a change to the payload
    through bytes it shares with the engine's buffer appears in this
    memory as a write to the payload's own cell. *)
Definition NewQuickfixEvent (id : SessionID) (t : string) (message : option nat)
  : M quickfixEvent := fun w =>
  match message with
  | None => Done (mkEvent SessionID_zero t None) w
  | Some src =>
    let msg := length (messages w) in
    let w := set_messages (messages w ++ [NewMessage_data]) w in
    match messages w !! src with
    | None => Panic nil_dereference w
    | Some d =>
      Done (mkEvent SessionID_zero t (Some msg))
           (set_messages (<[msg := d]> (messages w)) w)
    end
  end.

(** [conf.FieldString] is the configuration given as a lookup; the logger
    and resources fields of the adapter carry no behaviour and are left
    out. *)
Definition quickfixInputFromParsed (conf : string -> result string)
  : result quickfixInput :=
  match conf quickfixInputApplicationType with
  | Err e => Err e
  | Ok appType =>
    match conf quickfixInputConfigFile with
    | Err e => Err e
    | Ok configFile =>
      match conf quickfixInputMsgStoreType with
      | Err e => Err e
      | Ok storeType =>
        match conf quickfixInputLoggerType with
        | Err e => Err e
        | Ok logType =>
          match GetSettings configFile with
          | Err e => Err e
          | Ok settings =>
            Ok {| appType := appType; storeType := storeType;
                  logType := logType; config := configFile;
                  settings := settings;
                  appDictionaries := None; transportDictionaries := None;
                  eventChan := None |}
          end
        end
      end
    end
  end.

(** Channel operations. *)
Definition chan_make : M nat := fun w =>
  let c := length (chans w) in
  Done c (emit (ChanMake c)
            (set_chans (chans w ++ [{| closed := false; sendq := [] |}]) w)).

(** [ch <- e]: forever parked on a nil channel, a panic on a closed one,
    otherwise parked until received.  The parked sender is recorded in
    [sendq]; no callback does anything after its send but return. *)
Definition chan_send (ch : option nat) (e : quickfixEvent) : M unit := fun w =>
  match ch with
  | None => Blocked w
  | Some c =>
    match chans w !! c with
    | None => Panic nil_dereference w
    | Some k =>
      if closed k then Panic "send on closed channel" w
      else Done tt (set_chans
                      (<[c := {| closed := false; sendq := sendq k ++ [e] |}]> (chans w)) w)
    end
  end.

(** [close(ch)]; closing wakes every parked sender, which then panics. *)
Definition chan_close (ch : option nat) : M unit := fun w =>
  match ch with
  | None => Panic "close of nil channel" w
  | Some c =>
    match chans w !! c with
    | None => Panic nil_dereference w
    | Some k =>
      if closed k then Panic "close of closed channel" w
      else
        let w := emit (ChanClose c)
                   (set_chans (<[c := {| closed := true; sendq := sendq k |}]> (chans w)) w) in
        match sendq k with
        | [] => Done tt w
        | _ :: _ => Panic "send on closed channel" w
        end
    end
  end.

Definition Connect (q : quickfixInput) : M (quickfixInput * option error) :=
  bind (GetOrCreateFixApp (appType q) (storeType q) (logType q) q (config q))
    (fun r =>
       match r with
       | Err e => ret (q, Some e)
       | Ok fixapp =>
         bind chan_make (fun eventChan =>
         let q := with_eventChan (Some eventChan) q in
         bind (Start fixapp) (fun _ => ret (q, None)))
       end).

(** Modelled from the spec: the two failure signals of the service
    package, whose declarations are not among the sources. *)
Definition ErrNotConnected : error := "not connected".
Definition ErrEndOfInput : error := "end of input".

Record service_Message : Type := {
  body : list byte;
  meta : gmap string string
}.

Inductive AckFunc : Type := ack_nil.

Definition ReadResult : Type :=
  (option service_Message * option AckFunc * option error)%type.

(** [ctx] is the error of a context that is done, [None] while it is not;
    [pick_recv] is the choice of [select] when both cases are ready. *)
Definition Read (q : quickfixInput) (ctx : option error) (pick_recv : bool)
  : M (quickfixInput * ReadResult) := fun w =>
  match eventChan q with
  | None => Done (q, (None, None, Some ErrNotConnected)) w
  | Some c =>
    match chans w !! c with
    | None => Panic nil_dereference w
    | Some k =>
      let receive : Res (quickfixInput * ReadResult) :=
        match sendq k with
        | msg :: rest =>
          let w := set_chans (<[c := {| closed := closed k; sendq := rest |}]> (chans w)) w in
          match Message_ToJSON (message msg ≫= (messages w !!.)) true
                               (appDictionaries q ≫= (.!! sessionId msg)) with
          | None => Panic nil_dereference w
          | Some json =>
            let m := {| body := json;
                        meta := <["quickfix_event" := eventType msg]>
                                  (<["quickfix_session_id" := SessionID_String (sessionId msg)]> ∅) |} in
            Done (q, (Some m, Some ack_nil, None)) w
          end
        | [] => Done (with_eventChan None q, (None, None, Some ErrEndOfInput)) w
        end in
      let recv_ready := closed k || bool_decide (sendq k <> []) in
      match ctx with
      | Some e => if recv_ready && pick_recv then receive
                  else Done (q, (None, None, Some e)) w
      | None => if recv_ready then receive else Blocked w
      end
    end
  end.

Definition Close (q : quickfixInput) : M (option error) :=
  bind (chan_close (eventChan q)) (fun _ =>
  bind (GetOrCreateFixApp (appType q) (storeType q) (logType q) q (config q))
    (fun r =>
       match r with
       | Err e => ret (Some e)
       | Ok fixapp => bind (Stop fixapp) (fun _ => ret None)
       end)).

(** [m[k] = v] on a map that may be nil. *)
Definition map_assign (m : option (gmap SessionID DataDictionary))
    (k : SessionID) (v : DataDictionary)
  : result (option (gmap SessionID DataDictionary)) :=
  match m with
  | None => Err "assignment to entry in nil map"
  | Some m => Ok (Some (<[k := v]> m))
  end.

(** The two dictionary blocks of [OnCreate].  [session.Setting] cannot
    fail for a key that [HasSetting] reports. *)
Definition OnCreate_app (q : quickfixInput) (sessionID : SessionID)
    (session : gmap string string) : result quickfixInput :=
  match session !! "DataDictionary" with
  | None => Ok q
  | Some file =>
    match datadictionary_Parse file with
    | Err _ => Ok q
    | Ok dict =>
      match map_assign (appDictionaries q) sessionID dict with
      | Err e => Err e
      | Ok m =>
        let q := with_appDictionaries m q in
        match map_assign (transportDictionaries q) sessionID dict with
        | Err e => Err e
        | Ok m => Ok (with_transportDictionaries m q)
        end
      end
    end
  end.

Definition OnCreate_transport (q : quickfixInput) (sessionID : SessionID)
    (session : gmap string string) : result quickfixInput :=
  match session !! "TransportDataDictionary" with
  | None => Ok q
  | Some file =>
    match datadictionary_Parse file with
    | Err _ => Ok q
    | Ok dict =>
      match map_assign (transportDictionaries q) sessionID dict with
      | Err e => Err e
      | Ok m => Ok (with_transportDictionaries m q)
      end
    end
  end.

(** A session missing from the settings gives a nil [*SessionSettings],
    whose [HasSetting] dereferences it. *)
Definition OnCreate (q : quickfixInput) (sessionID : SessionID)
  : M quickfixInput := fun w =>
  match Settings_SessionSettings (settings q) sessionID with
  | None => Panic nil_dereference w
  | Some session =>
    match OnCreate_app q sessionID session with
    | Err e => Panic e w
    | Ok q =>
      match OnCreate_transport q sessionID session with
      | Err e => Panic e w
      | Ok q =>
        bind (NewQuickfixEvent sessionID createEvent None)
             (fun event => bind (chan_send (eventChan q) event)
                                (fun _ => ret q)) w
      end
    end
  end.

Definition OnLogon (q : quickfixInput) (sessionID : SessionID) : M unit :=
  bind (NewQuickfixEvent sessionID logonEvent None)
       (fun event => chan_send (eventChan q) event).

Definition OnLogout (q : quickfixInput) (sessionID : SessionID) : M unit :=
  bind (NewQuickfixEvent sessionID logoutEvent None)
       (fun event => chan_send (eventChan q) event).

Definition ToAdmin (q : quickfixInput) (message : option nat)
    (sessionID : SessionID) : M unit :=
  bind (NewQuickfixEvent sessionID toAdminEvent message)
       (fun event => chan_send (eventChan q) event).

Definition ToApp (q : quickfixInput) (message : option nat)
    (sessionID : SessionID) : M (option error) :=
  bind (NewQuickfixEvent sessionID toAppEvent message)
       (fun event => bind (chan_send (eventChan q) event) (fun _ => ret None)).

Definition FromAdmin (q : quickfixInput) (message : option nat)
    (sessionID : SessionID) : M (option error) :=
  bind (NewQuickfixEvent sessionID fromAdminEvent message)
       (fun event => bind (chan_send (eventChan q) event) (fun _ => ret None)).

Definition FromApp (q : quickfixInput) (message : option nat)
    (sessionID : SessionID) : M (option error) :=
  bind (NewQuickfixEvent sessionID fromAppEvent message)
       (fun event => bind (chan_send (eventChan q) event) (fun _ => ret None)).

(** [n] calls of the same operation, one after the other. *)
Fixpoint times {A : Type} (n : nat) (m : M A) : M unit :=
  match n with
  | O => ret tt
  | S n => bind m (fun _ => times n m)
  end.

(** The world an outcome ends in. *)
Definition final_world {A : Type} (r : Res A) : World :=
  match r with
  | Done _ w | Panic _ w | Blocked w => w
  end.

(** Both dictionary maps are nil. *)
Definition no_dictionaries (q : quickfixInput) : Prop :=
  appDictionaries q = None /\ transportDictionaries q = None.

(** One step in the life of an adapter: a method that can assign to the
    adapter's fields returns, leaving the adapter as [q']. *)
Inductive adapter_step : quickfixInput -> quickfixInput -> Prop :=
| step_Connect (q : quickfixInput) (w : World) q' r w' :
    Connect q w = Done (q', r) w' -> adapter_step q q'
| step_Read (q : quickfixInput) ctx pick (w : World) q' r w' :
    Read q ctx pick w = Done (q', r) w' -> adapter_step q q'
| step_OnCreate (q : quickfixInput) sessionID (w : World) q' w' :
    OnCreate q sessionID w = Done q' w' -> adapter_step q q'.

End Quickfix.

Arguments Done {Ext A} a w.
Arguments Panic {Ext A} why w.
Arguments Blocked {Ext A} w.

(** ** A stand-in library

    A synchronous stand-in for the libraries, used to run the code on
    concrete inputs: session identifiers are strings, a message is its
    bytes, the hash is the identity, three configuration files exist (two
    with the same bytes, one whose read breaks off), acceptors fail to start
    and initiators start. *)
Module Double.

Definition session_S1 : gmap string string := {[ "DataDictionary" := "FIX44.xml" ]}.

Definition cfg_bytes : list byte := [x5b; x53; x5d].

Definition open (path : string) : result File :=
  if decide (path = "fix.cfg") then
    Ok {| file_bytes := cfg_bytes; file_fault := None |}
  else if decide (path = "copy.cfg") then
    Ok {| file_bytes := cfg_bytes; file_fault := None |}
  else if decide (path = "broken.cfg") then
    Ok {| file_bytes := cfg_bytes; file_fault := Some (1, "input/output error") |}
  else Err "no such file or directory".

Definition ext : External := {|
  SessionID := string;
  SessionID_zero := "";
  SessionID_String := fun s => s;
  Settings := gmap string (gmap string string);
  Settings_SessionSettings := fun s id => s !! id;
  MessageData := list byte;
  NewMessage_data := [];
  DataDictionary := string;
  Message_ToJSON := fun m _ _ => Some (default [] m);
  datadictionary_Parse := fun file =>
    if decide (file = "") then Err "empty dictionary" else Ok file;
  sha256_Sum := fun b => b;
  filepath_Abs := fun p => Ok p;
  os_Open := open;
  quickfix_ParseSettings := fun _ => Ok {[ "S1" := session_S1 ]};
  filelog_NewLogFactory := fun _ => None;
  quickfix_NewAcceptor := fun _ _ _ => None;
  quickfix_NewInitiator := fun _ _ _ => None;
  Acceptor_Start := fun _ _ => Some "listen: address already in use";
  Initiator_Start := fun _ _ => None
|}.

Definition world0 : @World ext :=
  {| fixappstore := ∅; fixapps := []; engines := 0; chans := [];
     messages := []; trace := [] |}.

Definition conf (application_type : string) (key : string) : result string :=
  if decide (key = quickfixInputApplicationType) then Ok application_type
  else if decide (key = quickfixInputConfigFile) then Ok "fix.cfg"
  else if decide (key = quickfixInputMsgStoreType) then Ok "memory"
  else if decide (key = quickfixInputLoggerType) then Ok "screen"
  else Err ("field not found: " ++ key).

Definition input0 (application_type : string) : @quickfixInput ext :=
  {| appType := application_type; storeType := "memory"; logType := "screen";
     config := "fix.cfg"; settings := {[ "S1" := session_S1 ]};
     appDictionaries := None; transportDictionaries := None;
     eventChan := None |}.

(** A started handle held once, owning acceptor 0. *)
Definition started_once : fixapp :=
  {| chksum := cfg_bytes; acceptor := Some 0; initiator := None;
     state := fixappstatestarted; refcount := 1 |}.

Definition world_started : @World ext :=
  {| fixappstore := {[ string_of_list_byte cfg_bytes := 0 ]};
     fixapps := [started_once]; engines := 1;
     chans := [{| closed := false; sendq := [] |}];
     messages := []; trace := [ChanMake 0; AcceptorStart 0] |}.

(** A fresh handle owning acceptor 0, as the registry creates it. *)
Definition fresh_handle : fixapp :=
  with_engines (Some 0) None (new_fixapp cfg_bytes).

Definition world_fresh : @World ext :=
  {| fixappstore := {[ string_of_list_byte cfg_bytes := 0 ]};
     fixapps := [fresh_handle]; engines := 1; chans := [];
     messages := []; trace := [] |}.

(** The engine holds one message, at address 0. *)
Definition engine_message : @MessageData ext := [x38; x3d; x46].

Definition world_message : @World ext :=
  {| fixappstore := ∅; fixapps := []; engines := 0;
     chans := [{| closed := false; sendq := [] |}];
     messages := [engine_message]; trace := [] |}.

(** The world after a first registration of [fix.cfg]. *)
Definition world_registered : @World ext :=
  {| fixappstore := {[ string_of_list_byte cfg_bytes := 0 ]};
     fixapps := [fresh_handle]; engines := 1; chans := [];
     messages := []; trace := [] |}.

(** The adapter after [Connect], and the world after it is closed. *)
Definition input_connected : @quickfixInput ext :=
  with_eventChan (Some 0) (input0 "acceptor").

Definition world_closed : @World ext :=
  {| fixappstore := {[ string_of_list_byte cfg_bytes := 0 ]};
     fixapps := [with_engines None None started_once]; engines := 1;
     chans := [{| closed := true; sendq := [] |}];
     messages := [];
     trace := [ChanMake 0; AcceptorStart 0; ChanClose 0; AcceptorStop 0] |}.

End Double.

(** ** Calls into the package

    For statements about every sequence of calls: the exported functions
    and methods of the two files, and the world each leaves. *)

Section Calls.
Context `{Ext : External}.

Inductive Call : Type :=
| CallGetOrCreateFixApp (appType msgStore logType configFile : string)
| CallStart (f : nat)
| CallStop (f : nat)
| CallConnect (q : quickfixInput)
| CallRead (q : quickfixInput) (ctx : option error) (pick_recv : bool)
| CallClose (q : quickfixInput)
| CallOnCreate (q : quickfixInput) (sessionID : SessionID)
| CallOnLogon (q : quickfixInput) (sessionID : SessionID)
| CallOnLogout (q : quickfixInput) (sessionID : SessionID)
| CallToAdmin (q : quickfixInput) (message : option nat) (sessionID : SessionID)
| CallToApp (q : quickfixInput) (message : option nat) (sessionID : SessionID)
| CallFromAdmin (q : quickfixInput) (message : option nat) (sessionID : SessionID)
| CallFromApp (q : quickfixInput) (message : option nat) (sessionID : SessionID).

Definition after (c : Call) (w : World) : World :=
  match c with
  | CallGetOrCreateFixApp a m l p => final_world (GetOrCreateFixApp a m l tt p w)
  | CallStart f => final_world (Start f w)
  | CallStop f => final_world (Stop f w)
  | CallConnect q => final_world (Connect q w)
  | CallRead q ctx pick => final_world (Read q ctx pick w)
  | CallClose q => final_world (Close q w)
  | CallOnCreate q id => final_world (OnCreate q id w)
  | CallOnLogon q id => final_world (OnLogon q id w)
  | CallOnLogout q id => final_world (OnLogout q id w)
  | CallToAdmin q m id => final_world (ToAdmin q m id w)
  | CallToApp q m id => final_world (ToApp q m id w)
  | CallFromAdmin q m id => final_world (FromAdmin q m id w)
  | CallFromApp q m id => final_world (FromApp q m id w)
  end.

(** [w'] is the world one call after [w]. *)
Definition follows (w w' : World) : Prop := exists c : Call, w' = after c w.

(** Every registry entry points to an allocated handle that carries the
    checksum it is registered under. *)
Definition registry_wf (w : World) : Prop :=
  forall (k : string) (f : nat),
    fixappstore w !! k = Some f ->
    exists h, fixapps w !! f = Some h /\ string_of_list_byte (chksum h) = k.

(** What can become of a handle: its checksum stays, a started handle
    stays started, an engine field keeps its engine or loses it. *)
Definition handle_ages (h h' : fixapp) : Prop :=
  chksum h' = chksum h /\
  (state h = fixappstatestarted -> state h' = fixappstatestarted) /\
  (acceptor h' = acceptor h \/ acceptor h' = None) /\
  (initiator h' = initiator h \/ initiator h' = None).

Definition world_ages (w w' : World) : Prop :=
  fixappstore w ⊆ fixappstore w' /\
  (forall f h, fixapps w !! f = Some h ->
     exists h', fixapps w' !! f = Some h' /\ handle_ages h h') /\
  (registry_wf w -> registry_wf w').

(** Under computation [m] the world only ages. *)
Definition ages {A : Type} (m : M A) : Prop :=
  forall w : World, world_ages w (final_world (m w)).

(** A channel that is closed with nobody parked on it stays so. *)
Definition closed_stay_closed (w w' : World) : Prop :=
  forall c : nat,
    chans w !! c = Some {| closed := true; sendq := [] |} ->
    chans w' !! c = Some {| closed := true; sendq := [] |}.

(** Computation [m] relates every world to the one it ends in by [R]. *)
Definition stable {A : Type} (R : World -> World -> Prop) (m : M A) : Prop :=
  forall w : World, R w (final_world (m w)).

(** The channel of [q] is open and nobody is parked on it. *)
Definition idle_channel (q : quickfixInput) (w : World) (c : nat) : Prop :=
  eventChan q = Some c /\
  chans w !! c = Some {| closed := false; sendq := [] |}.

End Calls.

(** ** Further runs on the stand-in library *)
Module Scene.

(** A second adapter, configured with the copy of the file. *)
Definition input_copy : @quickfixInput Double.ext :=
  {| appType := "initiator"; storeType := "file"; logType := "file";
     config := "copy.cfg"; settings := {[ "S1" := Double.session_S1 ]};
     appDictionaries := None; transportDictionaries := None;
     eventChan := None |}.

(** An adapter asking for a message store that does not exist. *)
Definition input_redis : @quickfixInput Double.ext :=
  {| appType := "acceptor"; storeType := "redis"; logType := "screen";
     config := "fix.cfg"; settings := {[ "S1" := Double.session_S1 ]};
     appDictionaries := None; transportDictionaries := None;
     eventChan := None |}.

(** Sessions without a dictionary that parses: [S2] declares an empty
    file name, [S3] only a transport dictionary. *)
Definition sessions : @Settings Double.ext :=
  {[ "S2" := {[ "DataDictionary" := "" ]};
     "S3" := {[ "TransportDataDictionary" := "FIXT11.xml" ]} ]}.

Definition input_sessions : @quickfixInput Double.ext :=
  {| appType := "acceptor"; storeType := "memory"; logType := "screen";
     config := "fix.cfg"; settings := sessions;
     appDictionaries := None; transportDictionaries := None;
     eventChan := Some 0 |}.

(** Two adapters connected to the one handle. *)
Definition shared_twice : fixapp :=
  {| chksum := Double.cfg_bytes; acceptor := Some 0; initiator := None;
     state := fixappstatestarted; refcount := 2 |}.

Definition world_shared : @World Double.ext :=
  {| fixappstore := {[ string_of_list_byte Double.cfg_bytes := 0 ]};
     fixapps := [shared_twice]; engines := 1;
     chans := [{| closed := false; sendq := [] |};
               {| closed := false; sendq := [] |}];
     messages := [];
     trace := [ChanMake 0; AcceptorStart 0; ChanMake 1] |}.

(** A logon event parked on the channel of the connected adapter. *)
Definition logon_event : @quickfixEvent Double.ext :=
  mkEvent (Ext := Double.ext) "" logonEvent None.

Definition world_parked : @World Double.ext :=
  {| fixappstore := {[ string_of_list_byte Double.cfg_bytes := 0 ]};
     fixapps := [Double.started_once]; engines := 1;
     chans := [{| closed := false; sendq := [logon_event] |}];
     messages := []; trace := [ChanMake 0; AcceptorStart 0] |}.

(** Adapters that hold channel 0 while their file is gone, or is read
    differently than a registered one. *)
Definition input_gone : @quickfixInput Double.ext :=
  {| appType := "acceptor"; storeType := "memory"; logType := "screen";
     config := "gone.cfg"; settings := {[ "S1" := Double.session_S1 ]};
     appDictionaries := None; transportDictionaries := None;
     eventChan := Some 0 |}.

Definition input_changed : @quickfixInput Double.ext :=
  {| appType := "server"; storeType := "memory"; logType := "screen";
     config := "broken.cfg"; settings := {[ "S1" := Double.session_S1 ]};
     appDictionaries := None; transportDictionaries := None;
     eventChan := Some 0 |}.

(** The registry after a call for [fix.cfg] with the application type
    [server]. *)
Definition world_server : @World Double.ext :=
  after (CallGetOrCreateFixApp "server" "memory" "screen" "fix.cfg") Double.world0.

(** The closed adapter's file is connected again. *)
Definition world_reconnected : @World Double.ext :=
  after (CallConnect (Double.input0 "acceptor")) Double.world_closed.

End Scene.

(** * Properties *)

Local Open Scope list_scope.

Section Properties.
Context `{Ext : External}.

(** ** Arithmetic of [int] *)

Lemma int_incr_in_range (z : Z) :
  (int_min <= z < int_max)%Z -> int_incr z = (z + 1)%Z.
Proof.
  unfold int_incr, int_wrap, int_min, int_max.
  intros Hz. rewrite Z.mod_small; lia.
Qed.

Lemma int_decr_in_range (z : Z) :
  (int_min < z <= int_max)%Z -> int_decr z = (z - 1)%Z.
Proof.
  unfold int_decr, int_wrap, int_min, int_max.
  intros Hz. rewrite Z.mod_small; lia.
Qed.

(** ** The handle: [Start] and [Stop] *)

Lemma with_refcount_same (h : fixapp) : with_refcount (refcount h) h = h.
Proof. by destruct h. Qed.

Lemma set_fixapps_lookup (w : World) (l : list fixapp) (f : nat) (h x : fixapp) :
  fixapps w !! f = Some x ->
  l = <[f := h]> (fixapps w) ->
  fixapps (set_fixapps l w) !! f = Some h.
Proof.
  intros Hf ->. simpl. apply list_lookup_insert_eq. by eapply lookup_lt_Some.
Qed.

(** [Start] always returns; it marks the handle started and counts the
    call, whatever the engine answered. *)
Lemma Start_view (w : World) (f : nat) (h : fixapp) :
  fixapps w !! f = Some h ->
  exists err w',
    Start f w = Done err w' /\
    fixapps w' !! f =
      Some (with_refcount (int_incr (refcount h)) (with_state fixappstatestarted h)) /\
    fixappstore w' = fixappstore w /\
    (state h = fixappstatestarted -> err = None /\ trace w' = trace w) /\
    (state h = fixappstatestopped ->
     err = match acceptor h, initiator h with
           | Some a, _ => Acceptor_Start a (trace w)
           | None, Some i => Initiator_Start i (trace w)
           | None, None => Some "cannot start uninitialized fixapp"
           end).
Proof.
  intros Hf. unfold Start. rewrite Hf.
  destruct (decide (state h <> fixappstatestarted)) as [Hne|He].
  - destruct (acceptor h) as [a|] eqn:Ha, (initiator h) as [i|] eqn:Hi;
      (do 2 eexists; split; [reflexivity|];
       split; [by eapply set_fixapps_lookup|]; split; [done|];
       split; [intros Hs; congruence|done]).
  - assert (Hs : state h = fixappstatestarted)
      by (destruct (state h); [done|exfalso; apply He; discriminate]).
    do 2 eexists; split; [reflexivity|].
    split; [eapply set_fixapps_lookup; eauto; by destruct h; simpl in *; subst|].
    split; [done|]. split; [done|congruence].
Qed.

(** [Stop] while the handle is stopped or held more than once: the count
    goes down and nothing else happens. *)
Lemma Stop_shared (w : World) (f : nat) (h : fixapp) :
  fixapps w !! f = Some h ->
  state h = fixappstatestopped \/ (refcount h > 1)%Z ->
  exists w',
    Stop f w = Done tt w' /\
    fixapps w' !! f = Some (with_refcount (int_decr (refcount h)) h) /\
    fixappstore w' = fixappstore w /\
    trace w' = trace w.
Proof.
  intros Hf Hc. unfold Stop. rewrite Hf.
  destruct (decide _) as [_|Hn]; [|tauto].
  eexists; split; [reflexivity|].
  split; [by eapply set_fixapps_lookup|done].
Qed.

(** [Stop] by the last holder of a started handle: the engine is stopped
    and both engine fields are cleared; [state] and [refcount] are not
    assigned on this path. *)
Lemma Stop_last (w : World) (f : nat) (h : fixapp) :
  fixapps w !! f = Some h ->
  state h = fixappstatestarted ->
  (refcount h <= 1)%Z ->
  exists w',
    Stop f w = Done tt w' /\
    fixapps w' !! f = Some (with_engines None None h) /\
    fixappstore w' = fixappstore w /\
    trace w' = trace w ++ option_list (engine_stop_of h).
Proof.
  intros Hf Hs Hr. unfold Stop. rewrite Hf.
  destruct (decide _) as [[Hc|Hc]|_]; [congruence|lia|].
  unfold engine_stop_of.
  destruct (acceptor h) as [a|], (initiator h) as [i|];
    (eexists; split; [reflexivity|];
     split; [by eapply set_fixapps_lookup|]; split; [done|]; simpl;
     by rewrite ?app_nil_r).
Qed.

(** Repeated calls on a started handle. *)
Lemma times_Start_started (n : nat) :
  forall (w : World) (f : nat) (h : fixapp),
    fixapps w !! f = Some h ->
    state h = fixappstatestarted ->
    (0 <= refcount h)%Z ->
    (refcount h + Z.of_nat n <= int_max)%Z ->
    exists w',
      times n (Start f) w = Done tt w' /\
      fixapps w' !! f = Some (with_refcount (refcount h + Z.of_nat n) h) /\
      trace w' = trace w.
Proof.
  induction n as [|n IH]; intros w f h Hf Hs H0 Hmax.
  - exists w. simpl. rewrite Z.add_0_r, with_refcount_same. by unfold ret.
  - destruct (Start_view w f h Hf) as (err & w1 & HS & Hf1 & _ & Htr & _).
    destruct (Htr Hs) as [_ Htr1].
    rewrite int_incr_in_range in Hf1 by (unfold int_min, int_max in *; lia).
    destruct (IH w1 f _ Hf1) as (w' & Ht & Hf' & Htr'); simpl; try done; try lia.
    exists w'. unfold bind. rewrite HS. split; [done|]. split; [|congruence].
    rewrite Hf'. f_equal. destruct h; simpl in *; subst. unfold with_refcount; simpl.
    f_equal. lia.
Qed.

Lemma times_Stop_shared (k : nat) :
  forall (w : World) (f : nat) (h : fixapp),
    fixapps w !! f = Some h ->
    state h = fixappstatestarted ->
    (Z.of_nat k < refcount h)%Z ->
    (refcount h <= int_max)%Z ->
    exists w',
      times k (Stop f) w = Done tt w' /\
      fixapps w' !! f = Some (with_refcount (refcount h - Z.of_nat k) h) /\
      trace w' = trace w.
Proof.
  induction k as [|k IH]; intros w f h Hf Hs Hk Hmax.
  - exists w. simpl. rewrite Z.sub_0_r, with_refcount_same. by unfold ret.
  - destruct (Stop_shared w f h Hf) as (w1 & HS & Hf1 & _ & Htr1); [right; lia|].
    rewrite int_decr_in_range in Hf1 by (unfold int_min, int_max in *; lia).
    destruct (IH w1 f _ Hf1) as (w' & Ht & Hf' & Htr'); simpl; try done; try lia.
    exists w'. unfold bind. rewrite HS. split; [done|]. split; [|congruence].
    rewrite Hf'. f_equal. unfold with_refcount; simpl. f_equal. lia.
Qed.

(** C1 (as the code behaves): when the last holder of a started handle
    calls [Stop], the engine is stopped and the engine reference cleared,
    but the handle stays [fixappstatestarted] and [refcount] keeps its
    value: neither field is written on that path. *)
Theorem C1_Stop_last_holder_keeps_state_and_count
    (w : World) (f : nat) (h : fixapp) :
  fixapps w !! f = Some h ->
  state h = fixappstatestarted ->
  (refcount h <= 1)%Z ->
  exists w' h',
    Stop f w = Done tt w' /\
    fixapps w' !! f = Some h' /\
    trace w' = trace w ++ option_list (engine_stop_of h) /\
    acceptor h' = None /\ initiator h' = None /\
    state h' = fixappstatestarted /\
    refcount h' = refcount h.
Proof.
  intros Hf Hs Hr.
  destruct (Stop_last w f h Hf Hs Hr) as (w' & HS & Hf' & _ & Htr).
  exists w', (with_engines None None h). by repeat split.
Qed.

(** After such a [Stop] the handle cannot be started again: it is still
    marked started and owns no engine, so the next [Start] makes no call
    into the engine, reports no error and only counts. *)
Lemma Start_after_last_Stop_starts_nothing (w : World) (f : nat) (h : fixapp) :
  fixapps w !! f = Some h ->
  state h = fixappstatestarted ->
  (refcount h <= 1)%Z ->
  exists w1 w2 h2,
    Stop f w = Done tt w1 /\
    Start f w1 = Done None w2 /\
    trace w2 = trace w1 /\
    fixapps w2 !! f = Some h2 /\
    acceptor h2 = None /\ initiator h2 = None /\
    state h2 = fixappstatestarted /\
    refcount h2 = int_incr (refcount h).
Proof.
  intros Hf Hs Hr.
  destruct (Stop_last w f h Hf Hs Hr) as (w1 & HS & Hf1 & _ & _).
  destruct (Start_view w1 f _ Hf1) as (err & w2 & HS2 & Hf2 & _ & Hst & _).
  destruct (Hst Hs) as [-> Htr].
  exists w1, w2. eexists. by repeat split.
Qed.

(** C2: from a fresh handle (stopped, count 0) that owns an engine, [N]
    calls of [Start] leave [refcount = N]; the following [N-1] calls of
    [Stop] make no call into the engine, and the [N]th makes exactly the
    engine's stop. *)
Theorem C2_N_starts_then_Nth_stop_reaches_engine
    (N : nat) (w : World) (f : nat) (h : fixapp) :
  1 <= N ->
  (Z.of_nat N <= int_max)%Z ->
  fixapps w !! f = Some h ->
  state h = fixappstatestopped ->
  refcount h = 0%Z ->
  is_Some (engine_stop_of h) ->
  exists w1 h1,
    times N (Start f) w = Done tt w1 /\
    fixapps w1 !! f = Some h1 /\
    refcount h1 = Z.of_nat N /\
    (forall k, k <= N - 1 ->
       exists wk, times k (Stop f) w1 = Done tt wk /\ trace wk = trace w1) /\
    exists w2 w3 e,
      times (N - 1) (Stop f) w1 = Done tt w2 /\
      Stop f w2 = Done tt w3 /\
      trace w3 = trace w2 ++ [e] /\
      engine_stop_of h = Some e /\
      is_engine_stop e = true.
Proof.
  intros HN Hmax Hf Hs Hr [e He].
  destruct N as [|n]; [lia|]. clear HN.
  destruct (Start_view w f h Hf) as (err & w0 & HS & Hf0 & _ & _ & _).
  rewrite Hr in Hf0. change (int_incr 0) with 1%Z in Hf0.
  set (h0 := with_refcount 1 (with_state fixappstatestarted h)) in *.
  destruct (times_Start_started n w0 f h0 Hf0) as (w1 & Ht & Hf1 & Htr1);
    [done|simpl; lia|simpl; lia|].
  set (h1 := with_refcount (refcount h0 + Z.of_nat n) h0) in *.
  assert (Hr1 : refcount h1 = Z.of_nat (S n)) by (simpl; lia).
  exists w1, h1. split; [simpl; unfold bind; by rewrite HS|].
  split; [done|]. split; [done|].
  replace (S n - 1) with n by lia.
  split.
  - intros k Hk.
    destruct (times_Stop_shared k w1 f h1 Hf1) as (wk & Hk1 & _ & Hk3);
      [done|lia|lia|]. by exists wk.
  - destruct (times_Stop_shared n w1 f h1 Hf1) as (w2 & Hk1 & Hf2 & _);
      [done|lia|lia|].
    destruct (Stop_last w2 f _ Hf2) as (w3 & HS3 & _ & _ & Htr3);
      [done|simpl; lia|].
    exists w2, w3, e. split; [done|]. split; [done|].
    assert (Hsame : engine_stop_of
              (with_refcount (refcount h1 - Z.of_nat n) h1) = engine_stop_of h)
      by done.
    rewrite Hsame, He in Htr3. split; [done|]. split; [done|].
    unfold engine_stop_of in He.
    destruct (acceptor h), (initiator h); by simplify_eq.
Qed.

(** C3: every call of [Start] returns, having incremented [refcount] and
    left the handle started, also when no transition took place; when the
    handle was stopped, what the engine's start answered (or the error for
    a handle without engine) is what [Start] returns. *)
Theorem C3_Start_counts_every_call_and_returns_engine_error
    (w : World) (f : nat) (h : fixapp) :
  fixapps w !! f = Some h ->
  exists err w' h',
    Start f w = Done err w' /\
    fixapps w' !! f = Some h' /\
    refcount h' = int_incr (refcount h) /\
    ((int_min <= refcount h < int_max)%Z -> refcount h' = (refcount h + 1)%Z) /\
    state h' = fixappstatestarted /\
    (state h = fixappstatestarted -> err = None) /\
    (state h = fixappstatestopped ->
     err = match acceptor h, initiator h with
           | Some a, _ => Acceptor_Start a (trace w)
           | None, Some i => Initiator_Start i (trace w)
           | None, None => Some "cannot start uninitialized fixapp"
           end).
Proof.
  intros Hf.
  destruct (Start_view w f h Hf) as (err & w' & HS & Hf' & _ & Hst & Hsp).
  exists err, w', (with_refcount (int_incr (refcount h))
                     (with_state fixappstatestarted h)).
  split; [done|]. split; [done|]. split; [done|].
  split; [intros Hz; simpl; by apply int_incr_in_range|].
  split; [done|]. split; [intros Hs; by destruct (Hst Hs)|done].
Qed.

(** ** The registry: [GetOrCreateFixApp] *)

Lemma createChecksum_opened (path : string) (c : File) :
  os_Open path = Ok c ->
  createChecksum path = Ok (sha256_Sum (io_ReadAll c).1).
Proof.
  intros Ho. unfold createChecksum. rewrite Ho. by destruct (io_ReadAll c).
Qed.

Lemma createChecksum_open_error (path : string) (e : error) :
  os_Open path = Err e ->
  createChecksum path = Err ("failed to open config file: " ++ e)%string.
Proof. intros Ho. unfold createChecksum. by rewrite Ho. Qed.

(** An entry found under the checksum is returned as it is: the requested
    role, store and log kinds are not looked at, and nothing is written. *)
Lemma GetOrCreateFixApp_found {App : Type}
    (role store log : string) (app : App) (path : string)
    (chk : list byte) (w : World) (a : nat) :
  createChecksum path = Ok chk ->
  fixappstore w !! string_of_list_byte chk = Some a ->
  GetOrCreateFixApp role store log app path w = Done (Ok a) w.
Proof.
  intros Hc Ha. unfold GetOrCreateFixApp. by rewrite Hc, Ha.
Qed.

(** A call that returns a handle leaves it registered under the checksum
    of the file, and keeps every earlier entry. *)
Lemma GetOrCreateFixApp_registers {App : Type}
    (role store log : string) (app : App) (path : string)
    (w w' : World) (a : nat) :
  GetOrCreateFixApp role store log app path w = Done (Ok a) w' ->
  exists chk,
    createChecksum path = Ok chk /\
    fixappstore w' !! string_of_list_byte chk = Some a /\
    fixappstore w ⊆ fixappstore w'.
Proof.
  unfold GetOrCreateFixApp. intros H.
  destruct (createChecksum path) as [chk|e]; [|done].
  exists chk. split; [done|].
  destruct (fixappstore w !! string_of_list_byte chk) as [a0|] eqn:Hl.
  { by simplify_eq. }
  repeat case_match; simplify_eq; simpl;
    (split; [apply lookup_insert_eq | by apply insert_subseteq]).
Qed.

(** A call that returns an error leaves the registry as it was. *)
Lemma GetOrCreateFixApp_error_keeps_registry {App : Type}
    (role store log : string) (app : App) (path : string)
    (w w' : World) (e : error) :
  GetOrCreateFixApp role store log app path w = Done (Err e) w' ->
  fixappstore w' = fixappstore w.
Proof.
  unfold GetOrCreateFixApp. intros H.
  repeat case_match; by simplify_eq.
Qed.

(** The call never panics and never parks. *)
Lemma GetOrCreateFixApp_returns {App : Type}
    (role store log : string) (app : App) (path : string) (w : World) :
  exists r w', GetOrCreateFixApp role store log app path w = Done r w'.
Proof.
  unfold GetOrCreateFixApp. repeat case_match; eauto.
Qed.

(** C4: when two configuration files are read in full and hold the same
    bytes, the handle a first call returned is registered under their
    common checksum, and every call for the second file made while that
    entry is there returns the same handle, whatever role, store kind, log
    kind and application it asks for, without touching the world. *)
Theorem C4_same_bytes_same_handle {App1 : Type}
    (role1 store1 log1 : string) (app1 : App1) (path1 path2 : string)
    (c1 c2 : File) (w w1 : World) (a : nat) :
  os_Open path1 = Ok c1 ->
  os_Open path2 = Ok c2 ->
  file_fault c1 = None ->
  file_fault c2 = None ->
  file_bytes c1 = file_bytes c2 ->
  GetOrCreateFixApp role1 store1 log1 app1 path1 w = Done (Ok a) w1 ->
  fixappstore w1 !! string_of_list_byte (sha256_Sum (file_bytes c1)) = Some a /\
  forall (App2 : Type) (role2 store2 log2 : string) (app2 : App2) (w2 : World),
    fixappstore w1 ⊆ fixappstore w2 ->
    GetOrCreateFixApp role2 store2 log2 app2 path2 w2 = Done (Ok a) w2.
Proof.
  intros Ho1 Ho2 Hf1 Hf2 Hb Hcall.
  destruct (GetOrCreateFixApp_registers _ _ _ _ _ _ _ _ Hcall)
    as (chk & Hc & Hl & _).
  rewrite (createChecksum_opened _ _ Ho1) in Hc.
  unfold io_ReadAll in Hc. rewrite Hf1 in Hc. simpl in Hc. simplify_eq.
  split; [done|].
  intros App2 role2 store2 log2 app2 w2 Hsub.
  eapply GetOrCreateFixApp_found.
  - rewrite (createChecksum_opened _ _ Ho2).
    unfold io_ReadAll. rewrite Hf2. simpl. by rewrite <- Hb.
  - by eapply lookup_weaken.
Qed.

(** C7 (as the code behaves): a read that breaks off after [n] bytes is
    not reported.  The checksum is taken over the bytes read so far; an
    entry registered under it is returned, and when there is none and
    the engine can be built the new handle is inserted under it. *)
Theorem C7_read_fault_is_swallowed {App : Type}
    (store log : string) (app : App) (path : string)
    (c : File) (n : nat) (e : error) (s : Settings)
    (st : MessageStoreFactory) (lg : LogFactory) (w : World) :
  os_Open path = Ok c ->
  file_fault c = Some (n, e) ->
  fixappstore w !! string_of_list_byte (sha256_Sum (take n (file_bytes c))) = None ->
  GetSettings path = Ok s ->
  createMessageStoreFactory store s = Ok st ->
  createLogFactory log s = Ok lg ->
  quickfix_NewAcceptor st s lg = None ->
  createChecksum path = Ok (sha256_Sum (take n (file_bytes c))) /\
  exists w',
    GetOrCreateFixApp acceptorType store log app path w
      = Done (Ok (length (fixapps w))) w' /\
    fixappstore w' =
      <[string_of_list_byte (sha256_Sum (take n (file_bytes c))) := length (fixapps w)]>
        (fixappstore w).
Proof.
  intros Ho Hf Hl Hs Hst Hlg Hn.
  assert (Hc : createChecksum path = Ok (sha256_Sum (take n (file_bytes c)))).
  { rewrite (createChecksum_opened _ _ Ho). unfold io_ReadAll. by rewrite Hf. }
  split; [done|].
  unfold GetOrCreateFixApp. rewrite Hc, Hl, Hs, Hst, Hlg.
  rewrite decide_True by done. cbv zeta. simpl fixapps. rewrite Hn. eauto.
Qed.

(** ** The adapter: [Connect] and [Close] *)

(** What the handle operations leave alone. *)
Lemma GetOrCreateFixApp_frame {App : Type}
    (role store log : string) (app : App) (path : string)
    (w w' : World) (r : result nat) :
  GetOrCreateFixApp role store log app path w = Done r w' ->
  chans w' = chans w /\ messages w' = messages w /\ trace w' = trace w.
Proof.
  unfold GetOrCreateFixApp. intros H.
  repeat case_match; by simplify_eq.
Qed.

Lemma Start_frame (f : nat) (w w' : World) (err : option error) :
  Start f w = Done err w' ->
  chans w' = chans w /\ messages w' = messages w.
Proof.
  unfold Start. intros H.
  repeat case_match; by simplify_eq.
Qed.

Lemma Stop_trace (f : nat) (w : World) :
  exists rest,
    trace (final_world (Stop f w)) = trace w ++ rest /\
    (rest = [] \/ exists e, rest = [e] /\ is_engine_stop e = true).
Proof.
  unfold Stop.
  repeat case_match; simpl;
    first [ by exists []; rewrite app_nil_r; split; [|left]
          | eexists; split; [reflexivity|]; right; eexists; by split ].
Qed.

(** [close] either panics at once, leaving no mark, or marks its close in
    the log; only in the second case can it return. *)
Lemma chan_close_trace (ch : option nat) (w : World) :
  (trace (final_world (chan_close ch w)) = trace w /\
   forall u w', chan_close ch w <> Done u w') \/
  exists c, ch = Some c /\
    trace (final_world (chan_close ch w)) = trace w ++ [ChanClose c].
Proof.
  unfold chan_close.
  repeat case_match; simpl; first [ by left | right; by eexists ].
Qed.

(** C6 (as the code behaves): in every execution of [Close], whether it
    returns or panics, the log is extended by nothing, or by the close of
    the adapter's channel, or by that close followed by one engine stop:
    the channel is closed first and the engine is stopped, if at all,
    after it. *)
Theorem C6_Close_closes_channel_before_stopping
    (q : quickfixInput) (w : World) :
  exists rest,
    trace (final_world (Close q w)) = trace w ++ rest /\
    (rest = [] \/
     exists c, eventChan q = Some c /\
       (rest = [ChanClose c] \/
        exists e, rest = [ChanClose c; e] /\ is_engine_stop e = true)).
Proof.
  unfold Close, bind, ret.
  destruct (chan_close_trace (eventChan q) w) as [[Htr Hno]|(c & Hq & Htr)].
  { exists []. rewrite app_nil_r. split; [|by left].
    destruct (chan_close (eventChan q) w) as [u w1| |] eqn:Hc; [|done..].
    by destruct (Hno u w1). }
  assert (Hshape : forall rest,
            rest = [] \/ (exists e, rest = [e] /\ is_engine_stop e = true) ->
            exists c0, eventChan q = Some c0 /\
              (ChanClose c :: rest = [ChanClose c0] \/
               exists e, ChanClose c :: rest = [ChanClose c0; e] /\
                         is_engine_stop e = true)).
  { intros rest [->|(e & -> & He)]; exists c; (split; [done|]);
      [by left|right; by exists e]. }
  destruct (chan_close (eventChan q) w) as [[] w1| |] eqn:Hc; simpl in *.
  - destruct (GetOrCreateFixApp _ _ _ _ _ w1) as [r w2| |] eqn:Hg.
    + destruct (GetOrCreateFixApp_frame _ _ _ _ _ _ _ _ Hg) as (_ & _ & Htr2).
      destruct r as [f|e]; simpl.
      * destruct (Stop_trace f w2) as (rest & Htr3 & Hrest).
        exists (ChanClose c :: rest). split; [|right; by apply Hshape].
        destruct (Stop f w2) as [[] w3| |]; simpl in *;
          rewrite Htr3, Htr2, Htr, <- app_assoc; done.
      * exists [ChanClose c]. split; [by rewrite Htr2, Htr|].
        right. exists c. split; [done|by left].
    + destruct (GetOrCreateFixApp_returns (appType q) (storeType q)
                  (logType q) q (config q) w1) as (r & w2 & Hr).
      rewrite Hr in Hg. discriminate.
    + destruct (GetOrCreateFixApp_returns (appType q) (storeType q)
                  (logType q) q (config q) w1) as (r & w2 & Hr).
      rewrite Hr in Hg. discriminate.
  - exists [ChanClose c]. split; [done|]. right. exists c. split; [done|by left].
  - exists [ChanClose c]. split; [done|]. right. exists c. split; [done|by left].
Qed.

(** C9: when the handle is obtained and its [Start] returns an error,
    [Connect] returns no error. *)
Theorem C9_Connect_discards_error_of_Start
    (q : quickfixInput) (w w1 wc w2 : World) (f c : nat) (e : error) :
  GetOrCreateFixApp (appType q) (storeType q) (logType q) q (config q) w
    = Done (Ok f) w1 ->
  chan_make w1 = Done c wc ->
  Start f wc = Done (Some e) w2 ->
  Connect q w = Done (with_eventChan (Some c) q, None) w2.
Proof.
  intros Hg Hc Hs. unfold Connect, bind, ret. by rewrite Hg, Hc, Hs.
Qed.

(** ** The session dictionaries *)

Lemma quickfixInputFromParsed_no_dictionaries
    (conf : string -> result string) (q : quickfixInput) :
  quickfixInputFromParsed conf = Ok q -> no_dictionaries q.
Proof.
  unfold quickfixInputFromParsed. intros H.
  repeat case_match; by simplify_eq.
Qed.

Lemma OnCreate_app_nil (q q' : quickfixInput) (sid : SessionID)
    (session : gmap string string) :
  no_dictionaries q -> OnCreate_app q sid session = Ok q' -> q' = q.
Proof.
  intros [Ha Ht]. unfold OnCreate_app. rewrite Ha. simpl.
  intros H. repeat case_match; by simplify_eq.
Qed.

Lemma OnCreate_transport_nil (q q' : quickfixInput) (sid : SessionID)
    (session : gmap string string) :
  no_dictionaries q -> OnCreate_transport q sid session = Ok q' -> q' = q.
Proof.
  intros [Ha Ht]. unfold OnCreate_transport. rewrite Ht. simpl.
  intros H. repeat case_match; by simplify_eq.
Qed.

(** No method of the adapter makes the maps. *)
Lemma adapter_step_no_dictionaries (q q' : quickfixInput) :
  adapter_step q q' -> no_dictionaries q -> no_dictionaries q'.
Proof.
  intros Hstep Hq. destruct Hstep as [q w q' r w' H|q ctx pick w q' r w' H|q sid w q' w' H].
  - unfold Connect, bind, ret in H.
    repeat case_match; by simplify_eq.
  - unfold Read in H.
    repeat case_match; by simplify_eq.
  - unfold OnCreate in H.
    destruct (Settings_SessionSettings (settings q) sid) as [session|]; [|done].
    destruct (OnCreate_app q sid session) as [qa|] eqn:Happ; [|done].
    apply OnCreate_app_nil in Happ as ->; [|done].
    destruct (OnCreate_transport q sid session) as [qt|] eqn:Htr; [|done].
    apply OnCreate_transport_nil in Htr as ->; [|done].
    unfold bind, ret, NewQuickfixEvent in H.
    repeat case_match; by simplify_eq.
Qed.

Lemma reachable_no_dictionaries (q0 q : quickfixInput) :
  rtc adapter_step q0 q -> no_dictionaries q0 -> no_dictionaries q.
Proof.
  induction 1 as [|q0 q1 q Hstep _ IH]; [done|].
  intros H0. apply IH. by eapply adapter_step_no_dictionaries.
Qed.

(** C10: an adapter built by the constructor and taken through any
    sequence of its methods has both dictionary maps still nil; for a
    session whose settings declare a [DataDictionary] that parses,
    [OnCreate] faults on the assignment into the nil map. *)
Theorem C10_OnCreate_assigns_into_nil_map
    (conf : string -> result string) (q0 q : quickfixInput)
    (sid : SessionID) (session : gmap string string)
    (file : string) (dict : DataDictionary) :
  quickfixInputFromParsed conf = Ok q0 ->
  rtc adapter_step q0 q ->
  Settings_SessionSettings (settings q) sid = Some session ->
  session !! "DataDictionary"%string = Some file ->
  datadictionary_Parse file = Ok dict ->
  appDictionaries q = None /\
  transportDictionaries q = None /\
  forall w : World,
    OnCreate q sid w = Panic "assignment to entry in nil map" w.
Proof.
  intros Hc Hr Hs Hd Hp.
  destruct (reachable_no_dictionaries q0 q Hr) as [Ha Ht].
  { by eapply quickfixInputFromParsed_no_dictionaries. }
  split; [done|]. split; [done|]. intros w.
  unfold OnCreate. rewrite Hs. unfold OnCreate_app. by rewrite Hd, Hp, Ha.
Qed.

(** ** The event bridge *)


(** What a successful [Connect] leaves: the adapter points to a channel
    that is open and has no parked sender. *)
Lemma Connect_view (q q1 : quickfixInput) (w w1 : World) :
  Connect q w = Done (q1, None) w1 ->
  exists c,
    q1 = with_eventChan (Some c) q /\
    chans w1 !! c = Some {| closed := false; sendq := [] |}.
Proof.
  unfold Connect, bind, ret, chan_make. intros H.
  destruct (GetOrCreateFixApp _ _ _ _ _ w) as [[f|e] w0| |]; [|done..].
  destruct (Start f _) as [err w2| |] eqn:Hs; [|done..].
  apply Start_frame in Hs as [Hch _]. simplify_eq.
  eexists. split; [done|]. rewrite Hch. simpl.
  by rewrite lookup_app_r, Nat.sub_diag.
Qed.

(** C5 (as the code behaves): after a successful [Connect] and a logon
    callback for any session [S1], the callback's event waits on the
    channel and the next [Read] that receives it either faults in
    [ToJSON] on the nil payload or returns a message whose metadata
    reports the event [logon] and the session identifier of the zero
    [SessionID]: the identifier passed to the callback is not stored. *)
Theorem C5_logon_event_loses_its_session
    (q q1 : quickfixInput) (w w1 : World) (S1 : SessionID)
    (ctx : option error) (pick_recv : bool) :
  Connect q w = Done (q1, None) w1 ->
  ctx = None \/ pick_recv = true ->
  exists w2 w3 : World,
    OnLogon q1 S1 w1 = Done tt w2 /\
    Read q1 ctx pick_recv w2 =
      match Message_ToJSON None true (appDictionaries q1 ≫= (.!! SessionID_zero)) with
      | None => Panic nil_dereference w3
      | Some json =>
        Done (q1,
              (Some {| body := json;
                       meta := <["quickfix_event"%string := logonEvent]>
                                 (<["quickfix_session_id"%string :=
                                      SessionID_String SessionID_zero]> ∅) |},
               Some ack_nil, None)) w3
      end.
Proof.
  intros Hc Hsel.
  destruct (Connect_view _ _ _ _ Hc) as (c & -> & Hch).
  pose proof (lookup_lt_Some _ _ _ Hch) as Hlt.
  eexists. eexists. split.
  - unfold OnLogon, bind, NewQuickfixEvent, chan_send. simpl. by rewrite Hch.
  - unfold Read. simpl. rewrite list_lookup_insert_eq by done. simpl.
    destruct ctx as [e|], pick_recv; simpl; try done;
      destruct Hsel; done.
Qed.

End Properties.

(** * Runs on the stand-in library *)

#[local] Existing Instance Double.ext.

(** The last [Stop] of a handle held once: the acceptor is stopped and
    dropped, the handle stays started with count 1. *)
Lemma C1_witness :
  exists w' h',
    @Stop Double.ext 0 Double.world_started = Done tt w' /\
    fixapps w' !! 0 = Some h' /\
    trace w' = [ChanMake 0; AcceptorStart 0; AcceptorStop 0] /\
    acceptor h' = None /\ initiator h' = None /\
    state h' = fixappstatestarted /\
    refcount h' = 1%Z.
Proof.
  apply (@C1_Stop_last_holder_keeps_state_and_count
           Double.ext Double.world_started 0 Double.started_once);
    [reflexivity | reflexivity | simpl; lia].
Defined.

(** Three starts, two silent stops, and the third stop reaching the
    acceptor. *)
Lemma C2_witness :
  exists w1 h1,
    times 3 (@Start Double.ext 0) Double.world_fresh = Done tt w1 /\
    fixapps w1 !! 0 = Some h1 /\
    refcount h1 = 3%Z /\
    (forall k, k <= 2 ->
       exists wk, times k (Stop 0) w1 = Done tt wk /\ trace wk = trace w1) /\
    exists w2 w3 e,
      times 2 (Stop 0) w1 = Done tt w2 /\
      Stop 0 w2 = Done tt w3 /\
      trace w3 = trace w2 ++ [e] /\
      engine_stop_of Double.fresh_handle = Some e /\
      is_engine_stop e = true.
Proof.
  apply (@C2_N_starts_then_Nth_stop_reaches_engine
           Double.ext 3 Double.world_fresh 0 Double.fresh_handle);
    [lia | unfold int_max; lia | reflexivity | reflexivity | reflexivity
    | by eexists].
Defined.

(** A first [Start] whose acceptor fails to listen: the error comes back,
    the handle is started and counted once. *)
Lemma C3_witness :
  exists w' h',
    @Start Double.ext 0 Double.world_fresh
      = Done (Some "listen: address already in use"%string) w' /\
    fixapps w' !! 0 = Some h' /\
    refcount h' = 1%Z /\
    state h' = fixappstatestarted.
Proof.
  destruct (@C3_Start_counts_every_call_and_returns_engine_error
              Double.ext Double.world_fresh 0 Double.fresh_handle)
    as (err & w' & h' & HS & Hf & Hr & _ & Hst & _ & He); [reflexivity|].
  exists w', h'. rewrite HS, (He eq_refl). by repeat split.
Defined.

(** [fix.cfg] and [copy.cfg] hold the same bytes: a request for an
    initiator with file store and file log gets the acceptor handle. *)
Lemma C4_witness :
  @GetOrCreateFixApp Double.ext unit "acceptor" "memory" "screen" tt "fix.cfg"
      Double.world0
    = Done (Ok 0) Double.world_registered /\
  fixappstore Double.world_registered
    !! string_of_list_byte (sha256_Sum Double.cfg_bytes) = Some 0 /\
  @GetOrCreateFixApp Double.ext unit "initiator" "file" "file" tt "copy.cfg"
      Double.world_registered
    = Done (Ok 0) Double.world_registered.
Proof.
  assert (H1 : @GetOrCreateFixApp Double.ext unit "acceptor" "memory" "screen" tt
                 "fix.cfg" Double.world0 = Done (Ok 0) Double.world_registered)
    by reflexivity.
  split; [exact H1|].
  destruct (@C4_same_bytes_same_handle Double.ext unit
              "acceptor" "memory" "screen" tt "fix.cfg" "copy.cfg"
              {| file_bytes := Double.cfg_bytes; file_fault := None |}
              {| file_bytes := Double.cfg_bytes; file_fault := None |}
              Double.world0 Double.world_registered 0
              eq_refl eq_refl eq_refl eq_refl eq_refl H1) as [Hreg Hsame].
  split; [exact Hreg|].
  by apply Hsame.
Defined.

(** [Connect] on the stand-in, from the empty world. *)
Lemma Double_Connect :
  Connect (Double.input0 "acceptor") Double.world0
    = Done (Double.input_connected, None) Double.world_started.
Proof. reflexivity. Qed.

(** After [Connect] and a logon of session [S1], [Read] reports the event
    [logon] with the empty session identifier. *)
Lemma C5_witness :
  exists w2 w3 : World,
    OnLogon Double.input_connected "S1"%string Double.world_started = Done tt w2 /\
    Read Double.input_connected None true w2 =
      Done (Double.input_connected,
            (Some {| body := [];
                     meta := <["quickfix_event"%string := "logon"%string]>
                               (<["quickfix_session_id"%string := ""%string]> ∅) |},
             Some ack_nil, None)) w3.
Proof.
  destruct (@C5_logon_event_loses_its_session Double.ext
              (Double.input0 "acceptor") Double.input_connected
              Double.world0 Double.world_started "S1"%string None true
              Double_Connect (or_introl eq_refl)) as (w2 & w3 & H1 & H2).
  exists w2, w3. split; [exact H1|exact H2].
Defined.

(** Closing a connected adapter: the channel is closed, then the acceptor
    is stopped. *)
Lemma C6_witness :
  Close Double.input_connected Double.world_started = Done None Double.world_closed /\
  exists rest,
    trace (final_world (Close Double.input_connected Double.world_started))
      = [ChanMake 0; AcceptorStart 0] ++ rest /\
    (rest = [] \/
     exists c, eventChan Double.input_connected = Some c /\
       (rest = [ChanClose c] \/
        exists e, rest = [ChanClose c; e] /\ is_engine_stop e = true)).
Proof.
  split; [reflexivity|].
  exact (@C6_Close_closes_channel_before_stopping Double.ext
           Double.input_connected Double.world_started).
Defined.

(** [broken.cfg] is read up to its first byte: the call registers a new
    handle under the checksum of that byte. *)
Lemma C7_witness :
  createChecksum "broken.cfg" = Ok [x5b] /\
  exists w' : World,
    GetOrCreateFixApp "acceptor" "memory" "screen" tt "broken.cfg" Double.world0
      = Done (Ok 0) w' /\
    fixappstore w' = <[string_of_list_byte [x5b] := 0]> ∅.
Proof.
  apply (@C7_read_fault_is_swallowed Double.ext unit "memory" "screen" tt
           "broken.cfg"
           {| file_bytes := Double.cfg_bytes;
              file_fault := Some (1, "input/output error"%string) |}
           1 "input/output error"%string
           {[ "S1"%string := Double.session_S1 ]}
           MemoryStoreFactory ScreenLogFactory Double.world0);
    reflexivity.
Defined.


(** [Connect] returns no error although the acceptor failed to start. *)
Lemma C9_witness :
  Start 0 (final_world (chan_make Double.world_registered))
    = Done (Some "listen: address already in use"%string) Double.world_started /\
  Connect (Double.input0 "acceptor") Double.world0
    = Done (with_eventChan (Some 0) (Double.input0 "acceptor"), None)
           Double.world_started.
Proof.
  split; [reflexivity|].
  apply (@C9_Connect_discards_error_of_Start Double.ext
           (Double.input0 "acceptor") Double.world0 Double.world_registered
           (final_world (chan_make Double.world_registered))
           Double.world_started 0 0 "listen: address already in use"%string);
    reflexivity.
Defined.

(** The adapter built from the configuration and connected: [OnCreate]
    for session [S1], which declares [FIX44.xml], faults. *)
Lemma C10_witness :
  appDictionaries Double.input_connected = None /\
  transportDictionaries Double.input_connected = None /\
  forall w : World,
    OnCreate Double.input_connected "S1"%string w
      = Panic "assignment to entry in nil map" w.
Proof.
  apply (@C10_OnCreate_assigns_into_nil_map Double.ext
           (Double.conf "acceptor") (Double.input0 "acceptor")
           Double.input_connected "S1"%string Double.session_S1
           "FIX44.xml"%string "FIX44.xml"%string).
  - reflexivity.
  - apply rtc_once. exact (step_Connect _ _ _ _ _ Double_Connect).
  - reflexivity.
  - reflexivity.
  - reflexivity.
Defined.

(** * Further properties of the code *)

#[local] Remove Hints Double.ext : typeclass_instances.

Section Lifecycle.
Context `{Ext : External}.

(** ** The registry *)

(** The three ways [GetOrCreateFixApp] ends: the entry was there or the
    checksum could not be taken (nothing changes); a later step failed
    (only the unreachable handle is left behind); a handle was built and
    registered. *)
Lemma GetOrCreateFixApp_cases {App : Type}
    (role store log : string) (app : App) (path : string) (w : World) :
  exists r w',
    GetOrCreateFixApp role store log app path w = Done r w' /\
    chans w' = chans w /\ messages w' = messages w /\ trace w' = trace w /\
    (w' = w \/
     (exists e chk,
        r = Err e /\
        fixappstore w' = fixappstore w /\
        fixapps w' = fixapps w ++ [new_fixapp chk] /\
        engines w' = engines w) \/
     (exists chk h,
        r = Ok (length (fixapps w)) /\
        createChecksum path = Ok chk /\
        fixappstore w !! string_of_list_byte chk = None /\
        fixappstore w' = <[string_of_list_byte chk := length (fixapps w)]> (fixappstore w) /\
        fixapps w' = fixapps w ++ [h] /\
        chksum h = chk /\ state h = fixappstatestopped /\ refcount h = 0%Z /\
        acceptor h = (if decide (role = acceptorType) then Some (engines w) else None) /\
        initiator h = (if decide (role = acceptorType) then None
                       else if decide (role = initiatorType) then Some (engines w)
                       else None) /\
        engines w' = (if decide (role = acceptorType \/ role = initiatorType)
                      then S (engines w) else engines w))).
Proof.
  unfold GetOrCreateFixApp.
  destruct (createChecksum path) as [chk|e] eqn:Hc; [|by eauto 10].
  destruct (fixappstore w !! string_of_list_byte chk) as [a|] eqn:Hl; [by eauto 10|].
  assert (Halter : forall g,
            alter g (length (fixapps w)) (fixapps w ++ [new_fixapp chk])
            = fixapps w ++ [g (new_fixapp chk)]).
  { intros g. rewrite <- (Nat.add_0_r (length (fixapps w))).
    by rewrite alter_app_r. }
  destruct (GetSettings path) as [s|e]; [|by eauto 15].
  destruct (createMessageStoreFactory store s) as [st|e]; [|by eauto 15].
  destruct (createLogFactory log s) as [lg|e]; [|by eauto 15].
  simpl.
  destruct (decide (role = acceptorType)) as [Ha|Ha].
  - destruct (quickfix_NewAcceptor st s lg) as [e|]; [by eauto 15|].
    do 2 eexists. split; [reflexivity|]. simpl. do 3 (split; [done|]).
    right. right. exists chk. eexists. rewrite Halter.
    rewrite decide_True by tauto. by repeat split.
  - destruct (decide (role = initiatorType)) as [Hi|Hi].
    + destruct (quickfix_NewInitiator st s lg) as [e|]; [by eauto 15|].
      do 2 eexists. split; [reflexivity|]. simpl. do 3 (split; [done|]).
      right. right. exists chk. eexists. rewrite Halter.
      rewrite decide_True by tauto. by repeat split.
    + do 2 eexists. split; [reflexivity|]. simpl. do 3 (split; [done|]).
      right. right. exists chk. eexists.
      rewrite decide_False by tauto. by repeat split.
Qed.

(** ** What no call undoes *)

Lemma handle_ages_refl (h : fixapp) : handle_ages h h.
Proof. unfold handle_ages. tauto. Qed.

Lemma handle_ages_trans (h1 h2 h3 : fixapp) :
  handle_ages h1 h2 -> handle_ages h2 h3 -> handle_ages h1 h3.
Proof.
  intros (Hc1 & Hs1 & Ha1 & Hi1) (Hc2 & Hs2 & Ha2 & Hi2).
  unfold handle_ages. split; [congruence|]. split; [tauto|].
  split.
  - destruct Ha2 as [->| ->]; tauto.
  - destruct Hi2 as [->| ->]; tauto.
Qed.

Lemma world_ages_refl (w : World) : world_ages w w.
Proof.
  split; [done|]. split; [|done].
  intros f h Hf. exists h. split; [done|apply handle_ages_refl].
Qed.

Lemma world_ages_trans (w1 w2 w3 : World) :
  world_ages w1 w2 -> world_ages w2 w3 -> world_ages w1 w3.
Proof.
  intros (Hr1 & Hh1 & Hw1) (Hr2 & Hh2 & Hw2).
  split; [by etrans|]. split; [|tauto].
  intros f h Hf.
  destruct (Hh1 f h Hf) as (h2 & Hf2 & Ha2).
  destruct (Hh2 f h2 Hf2) as (h3 & Hf3 & Ha3).
  exists h3. split; [done|by eapply handle_ages_trans].
Qed.

(** A world with the same registry and the same handles. *)
Lemma world_ages_same (w w' : World) :
  fixappstore w' = fixappstore w -> fixapps w' = fixapps w -> world_ages w w'.
Proof.
  intros Hr Hh. split; [by rewrite Hr|]. split.
  - intros f h Hf. exists h. rewrite Hh. split; [done|apply handle_ages_refl].
  - unfold registry_wf. by rewrite Hr, Hh.
Qed.

(** One handle replaced by an aged one. *)
Lemma world_ages_update (w w' : World) (f : nat) (h h' : fixapp) :
  fixapps w !! f = Some h ->
  handle_ages h h' ->
  fixappstore w' = fixappstore w ->
  fixapps w' = <[f := h']> (fixapps w) ->
  world_ages w w'.
Proof.
  intros Hf Ha Hr Hh.
  pose proof (lookup_lt_Some _ _ _ Hf) as Hlt.
  assert (Hlook : forall g x, fixapps w !! g = Some x ->
            exists x', fixapps w' !! g = Some x' /\ handle_ages x x').
  { intros g x Hg. rewrite Hh. destruct (decide (f = g)) as [->|Hne].
    - exists h'. rewrite list_lookup_insert_eq by done. by simplify_eq.
    - exists x. rewrite list_lookup_insert_ne by done.
      split; [done|apply handle_ages_refl]. }
  split; [by rewrite Hr|]. split; [done|].
  intros Hwf k g Hk. rewrite Hr in Hk.
  destruct (Hwf k g Hk) as (x & Hg & Hkey).
  destruct (Hlook g x Hg) as (x' & Hg' & (Hc & _)).
  exists x'. split; [done|]. by rewrite Hc.
Qed.

(** Handles appended, with or without a registration of the first. *)
Lemma world_ages_grow (w w' : World) (l : list fixapp) :
  fixapps w' = fixapps w ++ l ->
  (fixappstore w' = fixappstore w \/
   exists h, l = [h] /\
     fixappstore w !! string_of_list_byte (chksum h) = None /\
     fixappstore w' =
       <[string_of_list_byte (chksum h) := length (fixapps w)]> (fixappstore w)) ->
  world_ages w w'.
Proof.
  intros Hh Hr.
  assert (Hlook : forall g x, fixapps w !! g = Some x -> fixapps w' !! g = Some x).
  { intros g x Hg. rewrite Hh. by apply lookup_app_l_Some. }
  split; [|split].
  - destruct Hr as [->|(h & _ & Hnone & ->)]; [done|by apply insert_subseteq].
  - intros g x Hg. exists x. split; [by apply Hlook|apply handle_ages_refl].
  - intros Hwf k g Hk.
    destruct Hr as [Hr|(h & -> & Hnone & Hr)]; rewrite Hr in Hk.
    + destruct (Hwf k g Hk) as (x & Hg & Hkey). exists x. split; [by apply Hlook|done].
    + apply lookup_insert_Some in Hk as [[<- <-]|[Hne Hk]].
      * exists h. split; [|done]. rewrite Hh.
        by rewrite lookup_app_r, Nat.sub_diag.
      * destruct (Hwf k g Hk) as (x & Hg & Hkey).
        exists x. split; [by apply Hlook|done].
Qed.

Lemma final_world_bind {A B : Type} (m : M A) (k : A -> M B) (w : World) :
  final_world (bind m k w) =
    match m w with
    | Done a w1 => final_world (k a w1)
    | Panic _ w1 | Blocked w1 => w1
    end.
Proof. unfold bind. by destruct (m w). Qed.

Lemma ages_bind {A B : Type} (m : M A) (k : A -> M B) :
  ages m -> (forall a, ages (k a)) -> ages (bind m k).
Proof.
  intros Hm Hk w. rewrite final_world_bind.
  specialize (Hm w). destruct (m w) as [a w1|why w1|w1]; simpl in Hm; [|done..].
  eapply world_ages_trans; [done|apply Hk].
Qed.

Lemma ages_ret {A : Type} (a : A) : ages (ret a).
Proof. intros w. apply world_ages_refl. Qed.

Lemma GetOrCreateFixApp_ages {App : Type}
    (role store log : string) (app : App) (path : string) :
  ages (GetOrCreateFixApp role store log app path).
Proof.
  intros w.
  destruct (GetOrCreateFixApp_cases role store log app path w)
    as (r & w' & -> & _ & _ & _ & Hcase). simpl.
  destruct Hcase as [->|[(e & chk & _ & Hr & Hh & _)|(chk & h & _ & _ & Hn & Hr & Hh & Hc & _)]].
  - apply world_ages_refl.
  - eapply world_ages_grow; [done|by left].
  - eapply world_ages_grow; [done|]. right. exists h. by rewrite Hc.
Qed.

Lemma Start_ages (f : nat) : ages (Start f).
Proof.
  intros w. unfold Start.
  destruct (fixapps w !! f) as [h|] eqn:Hf; [|apply world_ages_refl].
  destruct (decide (state h <> fixappstatestarted)).
  - destruct (acceptor h) as [a|] eqn:Ha, (initiator h) as [i|] eqn:Hi; simpl;
      (eapply world_ages_update; [exact Hf| |done|done];
       unfold handle_ages; simpl; tauto).
  - simpl. eapply world_ages_update; [exact Hf| |done|done].
    unfold handle_ages. simpl. tauto.
Qed.

Lemma Stop_ages (f : nat) : ages (Stop f).
Proof.
  intros w. unfold Stop. destruct (fixapps w !! f) as [h|] eqn:Hf;
    [|apply world_ages_refl].
  destruct (decide _); simpl.
  - eapply world_ages_update; [done| |done|done].
    unfold handle_ages. simpl. tauto.
  - eapply (world_ages_update _ _ f h (with_engines None None h)); [done| |..].
    + unfold handle_ages. simpl. tauto.
    + by repeat case_match.
    + by repeat case_match.
Qed.

(** Channel and message operations leave registry and handles alone. *)
Lemma chan_make_ages : ages chan_make.
Proof. intros w. by apply world_ages_same. Qed.

Lemma chan_send_ages (ch : option nat) (e : quickfixEvent) : ages (chan_send ch e).
Proof.
  intros w. unfold chan_send. apply world_ages_same; by repeat case_match.
Qed.

Lemma chan_close_ages (ch : option nat) : ages (chan_close ch).
Proof.
  intros w. unfold chan_close. apply world_ages_same; by repeat case_match.
Qed.

Lemma NewQuickfixEvent_ages (id : SessionID) (t : string) (m : option nat) :
  ages (NewQuickfixEvent id t m).
Proof.
  intros w. unfold NewQuickfixEvent. apply world_ages_same; by repeat case_match.
Qed.

Lemma Read_ages (q : quickfixInput) (ctx : option error) (pick : bool) :
  ages (Read q ctx pick).
Proof.
  intros w. unfold Read. apply world_ages_same; by repeat case_match.
Qed.

Lemma callback_ages {A : Type} (q : quickfixInput) (id : SessionID)
    (t : string) (m : option nat) (k : unit -> M A) :
  (forall u, ages (k u)) ->
  ages (bind (NewQuickfixEvent id t m)
             (fun event => bind (chan_send (eventChan q) event) k)).
Proof.
  intros Hk. apply ages_bind; [apply NewQuickfixEvent_ages|].
  intros ev. apply ages_bind; [apply chan_send_ages|done].
Qed.

Lemma OnCreate_ages (q : quickfixInput) (id : SessionID) : ages (OnCreate q id).
Proof.
  intros w. unfold OnCreate.
  destruct (Settings_SessionSettings (settings q) id) as [session|];
    [|apply world_ages_refl].
  destruct (OnCreate_app q id session) as [qa|e]; [|apply world_ages_refl].
  destruct (OnCreate_transport qa id session) as [qt|e]; [|apply world_ages_refl].
  apply (callback_ages qt id createEvent None (fun _ => ret qt)).
  intros _. apply ages_ret.
Qed.

Lemma Connect_ages (q : quickfixInput) : ages (Connect q).
Proof.
  unfold Connect. apply ages_bind; [apply GetOrCreateFixApp_ages|].
  intros [f|e]; [|apply ages_ret].
  apply ages_bind; [apply chan_make_ages|]. intros c.
  apply ages_bind; [apply Start_ages|]. intros _. apply ages_ret.
Qed.

Lemma Close_ages (q : quickfixInput) : ages (Close q).
Proof.
  unfold Close. apply ages_bind; [apply chan_close_ages|]. intros _.
  apply ages_bind; [apply GetOrCreateFixApp_ages|].
  intros [f|e]; [|apply ages_ret].
  apply ages_bind; [apply Stop_ages|]. intros _. apply ages_ret.
Qed.

Lemma session_callback_ages (q : quickfixInput) (id : SessionID)
    (t : string) (m : option nat) :
  ages (bind (NewQuickfixEvent id t m)
             (fun event => chan_send (eventChan q) event)).
Proof.
  apply ages_bind; [apply NewQuickfixEvent_ages|].
  intros ev. apply chan_send_ages.
Qed.

Lemma after_ages (c : Call) (w : World) : world_ages w (after c w).
Proof.
  destruct c as [a ms l p|f|f|q|q ctx pick|q|q id|q id|q id
                 |q m id|q m id|q m id|q m id]; simpl.
  - apply GetOrCreateFixApp_ages.
  - apply Start_ages.
  - apply Stop_ages.
  - apply Connect_ages.
  - apply Read_ages.
  - apply Close_ages.
  - apply OnCreate_ages.
  - exact (session_callback_ages q id logonEvent None w).
  - exact (session_callback_ages q id logoutEvent None w).
  - exact (session_callback_ages q id toAdminEvent m w).
  - exact (callback_ages q id toAppEvent m (fun _ => ret None)
             (fun _ => ages_ret None) w).
  - exact (callback_ages q id fromAdminEvent m (fun _ => ret None)
             (fun _ => ages_ret None) w).
  - exact (callback_ages q id fromAppEvent m (fun _ => ret None)
             (fun _ => ages_ret None) w).
Qed.

Lemma reachable_ages (w w' : World) : rtc follows w w' -> world_ages w w'.
Proof.
  induction 1 as [|w w1 w' [c ->] _ IH]; [apply world_ages_refl|].
  eapply world_ages_trans; [apply after_ages|done].
Qed.

Lemma string_of_list_byte_inj (b1 b2 : list byte) :
  string_of_list_byte b1 = string_of_list_byte b2 -> b1 = b2.
Proof.
  intros H. apply (f_equal list_byte_of_string) in H.
  by rewrite !list_byte_of_string_of_list_byte in H.
Qed.

Lemma empty_registry_wf (w : World) : fixappstore w = ∅ -> registry_wf w.
Proof. intros He k f Hk. by rewrite He, lookup_empty in Hk. Qed.

(** X1: a registry entry is permanent.  When a handle is registered under
    a checksum, then after any sequence of calls into the package every
    [GetOrCreateFixApp] whose file gives that checksum returns that handle
    and changes nothing, whatever role, store kind and log kind it asks
    for: no call removes or redirects an entry. *)
Theorem X1_registry_entry_is_permanent {App : Type}
    (role store log : string) (app : App) (path : string)
    (chk : list byte) (w w' : World) (a : nat) :
  fixappstore w !! string_of_list_byte chk = Some a ->
  rtc follows w w' ->
  createChecksum path = Ok chk ->
  GetOrCreateFixApp role store log app path w' = Done (Ok a) w'.
Proof.
  intros Hl Hreach Hc.
  destruct (reachable_ages _ _ Hreach) as (Hsub & _ & _).
  eapply GetOrCreateFixApp_found; [done|]. by eapply lookup_weaken.
Qed.

(** X3: in every world reached from an empty registry, two files whose
    checksums differ get different handles. *)
Theorem X3_different_checksums_different_handles {App1 App2 : Type}
    (role1 store1 log1 : string) (app1 : App1) (path1 : string)
    (role2 store2 log2 : string) (app2 : App2) (path2 : string)
    (chk1 chk2 : list byte) (w0 w w1 w2 : World) (a1 a2 : nat) :
  fixappstore w0 = ∅ ->
  rtc follows w0 w ->
  createChecksum path1 = Ok chk1 ->
  createChecksum path2 = Ok chk2 ->
  chk1 <> chk2 ->
  GetOrCreateFixApp role1 store1 log1 app1 path1 w = Done (Ok a1) w1 ->
  GetOrCreateFixApp role2 store2 log2 app2 path2 w1 = Done (Ok a2) w2 ->
  a1 <> a2.
Proof.
  intros He Hreach Hc1 Hc2 Hne Hg1 Hg2 Heq. subst a2.
  assert (Hwf : registry_wf w).
  { destruct (reachable_ages _ _ Hreach) as (_ & _ & Hwf).
    by apply Hwf, empty_registry_wf. }
  pose proof (GetOrCreateFixApp_ages role1 store1 log1 app1 path1 w) as (_ & _ & Hwf1).
  rewrite Hg1 in Hwf1. simpl in Hwf1.
  pose proof (GetOrCreateFixApp_ages role2 store2 log2 app2 path2 w1) as (_ & _ & Hwf2).
  rewrite Hg2 in Hwf2. simpl in Hwf2.
  destruct (GetOrCreateFixApp_registers _ _ _ _ _ _ _ _ Hg1) as (c1 & Hc1' & Hl1 & _).
  destruct (GetOrCreateFixApp_registers _ _ _ _ _ _ _ _ Hg2) as (c2 & Hc2' & Hl2 & Hsub).
  simplify_eq.
  pose proof (lookup_weaken _ _ _ _ Hl1 Hsub) as Hl1'.
  destruct (Hwf2 (Hwf1 Hwf) _ _ Hl1') as (h1 & Hf1 & Hk1).
  destruct (Hwf2 (Hwf1 Hwf) _ _ Hl2) as (h2 & Hf2 & Hk2).
  simplify_eq. apply Hne. apply string_of_list_byte_inj. congruence.
Qed.

(** X4: a call of [GetOrCreateFixApp] that returns an error has changed
    nothing that can be observed: the registry, the engines built, the
    channels, the messages and the call log are as before, and so is
    every handle that existed. *)
Theorem X4_failed_GetOrCreateFixApp_changes_nothing {App : Type}
    (role store log : string) (app : App) (path : string)
    (w w' : World) (e : error) :
  GetOrCreateFixApp role store log app path w = Done (Err e) w' ->
  fixappstore w' = fixappstore w /\
  engines w' = engines w /\
  chans w' = chans w /\
  messages w' = messages w /\
  trace w' = trace w /\
  forall f h, fixapps w !! f = Some h -> fixapps w' !! f = Some h.
Proof.
  intros Hg.
  destruct (GetOrCreateFixApp_cases role store log app path w)
    as (r & w1 & Hg1 & Hch & Hm & Htr & Hcase).
  rewrite Hg in Hg1. simplify_eq.
  destruct Hcase as [->|[(e' & chk & _ & Hr & Hh & He)|(chk & h & Hr & _)]];
    [done| |done].
  repeat (split; [done|]). intros f h Hf. rewrite Hh. by apply lookup_app_l_Some.
Qed.

(** X5: an application type that is neither [acceptor] nor [initiator] is
    not rejected.  For a checksum not yet registered the call builds no
    engine and registers a handle without one; [Start] on it returns the
    error [cannot start uninitialized fixapp], makes no call into an
    engine, and still leaves the handle started and counted once. *)
Theorem X5_unknown_application_type_registers_engineless_handle {App : Type}
    (role store log : string) (app : App) (path : string)
    (chk : list byte) (w w1 : World) (f : nat) :
  role <> acceptorType ->
  role <> initiatorType ->
  createChecksum path = Ok chk ->
  fixappstore w !! string_of_list_byte chk = None ->
  GetOrCreateFixApp role store log app path w = Done (Ok f) w1 ->
  engines w1 = engines w /\
  fixappstore w1 !! string_of_list_byte chk = Some f /\
  exists h w2 h2,
    fixapps w1 !! f = Some h /\
    acceptor h = None /\ initiator h = None /\
    Start f w1 = Done (Some "cannot start uninitialized fixapp"%string) w2 /\
    trace w2 = trace w /\
    fixapps w2 !! f = Some h2 /\
    state h2 = fixappstatestarted /\
    refcount h2 = 1%Z.
Proof.
  intros Hna Hni Hc Hl Hg.
  destruct (GetOrCreateFixApp_cases role store log app path w)
    as (r & w' & Hg1 & _ & _ & Htr & Hcase).
  rewrite Hg in Hg1. simplify_eq.
  destruct Hcase as [->|[(e' & c & ? & _)|(c & h & Hr & Hc' & _ & Hst & Hh & Hck & Hs & Hrc & Ha & Hi & He)]];
    [|done|].
  { exfalso. unfold GetOrCreateFixApp in Hg. rewrite Hc, Hl in Hg.
    repeat case_match; simplify_eq.
    all: match goal with
         | H : context [set_fixapps] |- _ =>
           apply (f_equal (fun x => length (fixapps x))) in H; simpl in H;
           rewrite ?length_alter, ?length_app in H; simpl in H; lia
         end. }
  simplify_eq.
  assert (Hck : chk = chksum h) by congruence. subst chk.
  rewrite decide_False in Ha by done. rewrite decide_False in Hi by done.
  rewrite decide_False in Hi by done. rewrite decide_False in He by tauto.
  split; [done|]. split; [rewrite Hst; apply lookup_insert_eq|].
  assert (Hf : fixapps w' !! length (fixapps w) = Some h).
  { rewrite Hh. by rewrite lookup_app_r, Nat.sub_diag. }
  destruct (Start_view w' _ h Hf) as (err & w2 & HS & Hf2 & _ & _ & Herr).
  specialize (Herr Hs). rewrite Ha, Hi in Herr. subst err.
  exists h, w2. eexists. split; [done|]. split; [done|]. split; [done|].
  split; [done|]. split; [|split; [done|]].
  - revert HS. unfold Start. rewrite Hf, Ha, Hi.
    destruct (decide _) as [_|Hn]; [|exfalso; apply Hn; rewrite Hs; discriminate].
    intros HS. simplify_eq. simpl. done.
  - simpl. by rewrite Hrc.
Qed.

(** ** Adapters sharing a handle *)

Lemma Start_keeps_engines (f : nat) (w w' : World) (err : option error) :
  Start f w = Done err w' ->
  engines w' = engines w /\ fixappstore w' = fixappstore w.
Proof.
  unfold Start. intros H. repeat case_match; by simplify_eq.
Qed.

Lemma Stop_frame (f : nat) (w w' : World) :
  Stop f w = Done tt w' ->
  chans w' = chans w /\ messages w' = messages w /\ engines w' = engines w.
Proof.
  unfold Stop. intros H. repeat case_match; by simplify_eq.
Qed.

(** [Connect] for a checksum that is registered. *)
Lemma Connect_registered (q : quickfixInput) (w : World)
    (chk : list byte) (f : nat) (h : fixapp) :
  createChecksum (config q) = Ok chk ->
  fixappstore w !! string_of_list_byte chk = Some f ->
  fixapps w !! f = Some h ->
  exists w',
    Connect q w = Done (with_eventChan (Some (length (chans w))) q, None) w' /\
    fixappstore w' = fixappstore w /\
    engines w' = engines w /\
    chans w' = chans w ++ [{| closed := false; sendq := [] |}] /\
    fixapps w' !! f =
      Some (with_refcount (int_incr (refcount h)) (with_state fixappstatestarted h)) /\
    (state h = fixappstatestarted ->
     trace w' = trace w ++ [ChanMake (length (chans w))]).
Proof.
  intros Hc Hl Hf. unfold Connect, bind, ret, chan_make.
  rewrite (GetOrCreateFixApp_found _ _ _ _ _ _ _ _ Hc Hl).
  set (wc := emit _ _).
  destruct (Start_view wc f h Hf) as (err & w' & HS & Hf' & Hr & Hst & _).
  destruct (Start_frame _ _ _ _ HS) as [Hch _].
  destruct (Start_keeps_engines _ _ _ _ HS) as [He _].
  exists w'. rewrite HS. split; [done|]. split; [done|]. split; [done|].
  split; [done|]. split; [done|].
  intros Hs. by destruct (Hst Hs) as [_ ->].
Qed.

(** [Close] of an adapter whose channel is idle and whose checksum is
    registered. *)
Lemma Close_registered (q : quickfixInput) (w : World)
    (chk : list byte) (f c : nat) (h : fixapp) :
  idle_channel q w c ->
  createChecksum (config q) = Ok chk ->
  fixappstore w !! string_of_list_byte chk = Some f ->
  fixapps w !! f = Some h ->
  exists w',
    Close q w = Done None w' /\
    fixappstore w' = fixappstore w /\
    chans w' = <[c := {| closed := true; sendq := [] |}]> (chans w) /\
    (state h = fixappstatestopped \/ (refcount h > 1)%Z ->
     fixapps w' !! f = Some (with_refcount (int_decr (refcount h)) h) /\
     trace w' = trace w ++ [ChanClose c]) /\
    (state h = fixappstatestarted -> (refcount h <= 1)%Z ->
     fixapps w' !! f = Some (with_engines None None h) /\
     trace w' = trace w ++ ChanClose c :: option_list (engine_stop_of h)).
Proof.
  intros [Hq Hch] Hc Hl Hf. unfold Close, bind, ret, chan_close.
  rewrite Hq, Hch. simpl.
  set (wc := emit _ _).
  rewrite (GetOrCreateFixApp_found _ _ _ _ _ _ wc f Hc Hl).
  destruct (decide (state h = fixappstatestopped \/ (refcount h > 1)%Z)) as [Hsh|Hlast].
  - destruct (Stop_shared wc f h Hf Hsh) as (w' & HS & Hf' & Hr & Htr).
    destruct (Stop_frame _ _ _ HS) as (Hch' & _).
    exists w'. rewrite HS. split; [done|]. split; [done|]. split; [done|].
    split; [done|]. intros Hs Hle. destruct Hsh; [congruence|lia].
  - assert (Hs : state h = fixappstatestarted)
      by (destruct (state h); [done|tauto]).
    assert (Hle : (refcount h <= 1)%Z) by lia.
    destruct (Stop_last wc f h Hf Hs Hle) as (w' & HS & Hf' & Hr & Htr).
    destruct (Stop_frame _ _ _ HS) as (Hch' & _).
    exists w'. rewrite HS. split; [done|]. split; [done|]. split; [done|].
    split; [tauto|]. intros _ _. split; [done|].
    rewrite Htr. simpl. by rewrite <- app_assoc.
Qed.

(** X2: in every world reached from an empty registry, a registry entry
    points to an allocated handle.  So a [Connect] whose file gives a
    registered checksum returns no error: it takes the registered handle,
    makes its channel and calls [Start] on a handle that is there, building
    no engine. *)
Theorem X2_Connect_for_registered_checksum_returns
    (q : quickfixInput) (w0 w : World) (chk : list byte) (f : nat) :
  fixappstore w0 = ∅ ->
  rtc follows w0 w ->
  createChecksum (config q) = Ok chk ->
  fixappstore w !! string_of_list_byte chk = Some f ->
  exists (h : fixapp) (w' : World),
    fixapps w !! f = Some h /\
    string_of_list_byte (chksum h) = string_of_list_byte chk /\
    Connect q w = Done (with_eventChan (Some (length (chans w))) q, None) w' /\
    fixappstore w' = fixappstore w /\
    engines w' = engines w.
Proof.
  intros He Hreach Hc Hl.
  assert (Hwf : registry_wf w).
  { destruct (reachable_ages _ _ Hreach) as (_ & _ & Hwf).
    by apply Hwf, empty_registry_wf. }
  destruct (Hwf _ _ Hl) as (h & Hf & Hk).
  destruct (Connect_registered q w chk f h Hc Hl Hf)
    as (w' & Hconn & Hr & Heng & _).
  by exists h, w'.
Qed.

(** X6: when a first [Connect] has registered and started a handle, a
    [Connect] of a second adapter whose file has the same checksum builds
    no engine and makes no call into one: it gets the same handle, whose
    count goes from 1 to 2, and a channel of its own. *)
Theorem X6_second_Connect_shares_the_engine
    (q1 q1' q2 : quickfixInput) (w w1 : World) (chk : list byte) :
  createChecksum (config q1) = Ok chk ->
  createChecksum (config q2) = Ok chk ->
  fixappstore w !! string_of_list_byte chk = None ->
  Connect q1 w = Done (q1', None) w1 ->
  exists (f c2 : nat) (h1 h2 : fixapp) (w2 : World),
    fixappstore w1 !! string_of_list_byte chk = Some f /\
    fixapps w1 !! f = Some h1 /\
    refcount h1 = 1%Z /\
    Connect q2 w1 = Done (with_eventChan (Some c2) q2, None) w2 /\
    eventChan q1' <> Some c2 /\
    engines w2 = engines w1 /\
    trace w2 = trace w1 ++ [ChanMake c2] /\
    fixappstore w2 !! string_of_list_byte chk = Some f /\
    fixapps w2 !! f = Some h2 /\
    refcount h2 = 2%Z /\
    state h2 = fixappstatestarted /\
    acceptor h2 = acceptor h1 /\ initiator h2 = initiator h1.
Proof.
  intros Hc1 Hc2 Hnone Hconn.
  unfold Connect, bind, ret, chan_make in Hconn.
  destruct (GetOrCreateFixApp_cases (appType q1) (storeType q1) (logType q1) q1
              (config q1) w) as (r & w0 & Hg & Hch0 & _ & _ & Hcase).
  rewrite Hg in Hconn. destruct r as [f|e]; [|done].
  destruct (GetOrCreateFixApp_registers _ _ _ _ _ _ _ _ Hg) as (chk' & Hc' & Hl0 & _).
  assert (chk' = chk) by congruence. subst chk'.
  destruct Hcase as [->|[(e' & c & ? & _)|(c & h & Hr & _ & _ & _ & Hh & _ & Hs & Hrc & _)]];
    [congruence|done|]. simplify_eq.
  assert (Hf0 : fixapps w0 !! length (fixapps w) = Some h)
    by (rewrite Hh; by rewrite lookup_app_r, Nat.sub_diag).
  set (wc := emit _ _) in Hconn.
  destruct (Start_view wc _ h Hf0) as (err & w1' & HS & Hf1 & Hr1 & _ & _).
  rewrite HS in Hconn. simplify_eq.
  destruct (Start_frame _ _ _ _ HS) as [Hch1 _].
  rewrite Hrc in Hf1. change (int_incr 0) with 1%Z in Hf1.
  set (h1 := with_refcount 1 (with_state fixappstatestarted h)) in *.
  assert (Hl1 : fixappstore w1 !! string_of_list_byte chk = Some (length (fixapps w)))
    by (by rewrite Hr1).
  destruct (Connect_registered q2 w1 chk _ h1 Hc2 Hl1 Hf1)
    as (w2 & Hconn2 & Hr2 & He2 & Hch2 & Hf2 & Htr2).
  exists (length (fixapps w)), (length (chans w1)), h1. eexists. exists w2.
  split; [done|]. split; [done|]. split; [done|]. split; [done|].
  split.
  { simpl. rewrite Hch1. simpl. rewrite length_app. simpl.
    intros [= Heq]. lia. }
  split; [done|]. split; [by apply Htr2|]. split; [by rewrite Hr2|].
  split; [done|]. by repeat split.
Qed.

(** X7: two adapters hold one started handle (count 2).  The first
    [Close] closes its channel and only counts down; the second closes its
    channel and then makes the engine's stop.  Both return no error. *)
Theorem X7_only_the_last_Close_stops_the_engine
    (q1 q2 : quickfixInput) (w : World) (chk : list byte)
    (f c1 c2 : nat) (h : fixapp) :
  createChecksum (config q1) = Ok chk ->
  createChecksum (config q2) = Ok chk ->
  fixappstore w !! string_of_list_byte chk = Some f ->
  fixapps w !! f = Some h ->
  state h = fixappstatestarted ->
  refcount h = 2%Z ->
  idle_channel q1 w c1 ->
  idle_channel q2 w c2 ->
  c1 <> c2 ->
  exists w1 w2 : World,
    Close q1 w = Done None w1 /\
    trace w1 = trace w ++ [ChanClose c1] /\
    Close q2 w1 = Done None w2 /\
    trace w2 = trace w1 ++ ChanClose c2 :: option_list (engine_stop_of h).
Proof.
  intros Hc1 Hc2 Hl Hf Hs Hrc Hi1 Hi2 Hne.
  destruct (Close_registered q1 w chk f c1 h Hi1 Hc1 Hl Hf)
    as (w1 & HC1 & Hr1 & Hch1 & Hshared & _).
  destruct Hshared as [Hf1 Htr1]; [right; lia|].
  rewrite Hrc in Hf1. change (int_decr 2) with 1%Z in Hf1.
  assert (Hi2' : idle_channel q2 w1 c2).
  { destruct Hi2 as [Hq2 Hk2]. split; [done|].
    rewrite Hch1. by rewrite list_lookup_insert_ne. }
  assert (Hl1 : fixappstore w1 !! string_of_list_byte chk = Some f) by (by rewrite Hr1).
  destruct (Close_registered q2 w1 chk f c2 _ Hi2' Hc2 Hl1 Hf1)
    as (w2 & HC2 & _ & _ & _ & Hlast).
  destruct Hlast as [_ Htr2]; [done|simpl; lia|].
  exists w1, w2. by repeat split.
Qed.

(** ** After [Close], and before [Connect] *)

(** What a returning [Close] leaves of the channel. *)
Lemma Close_Done_view (q : quickfixInput) (w w' : World) (r : option error) :
  Close q w = Done r w' ->
  exists c,
    eventChan q = Some c /\
    chans w' !! c = Some {| closed := true; sendq := [] |} /\
    messages w' = messages w.
Proof.
  unfold Close, bind, ret, chan_close. intros H.
  destruct (eventChan q) as [c|]; [|done].
  destruct (chans w !! c) as [k|] eqn:Hk; [|done].
  destruct (closed k); [done|].
  destruct (sendq k) as [|ev rest]; [|done].
  pose proof (lookup_lt_Some _ _ _ Hk) as Hlt.
  set (wc := emit _ _) in H.
  assert (Hwc : chans wc !! c = Some {| closed := true; sendq := [] |})
    by (simpl; by apply list_lookup_insert_eq).
  exists c. split; [done|].
  destruct (GetOrCreateFixApp _ _ _ _ _ wc) as [[f|e] w1| |] eqn:Hg; [| |done..];
    destruct (GetOrCreateFixApp_frame _ _ _ _ _ _ _ _ Hg) as (Hch1 & Hm1 & _).
  - destruct (Stop f w1) as [[] w2| |] eqn:HS; [|done..].
    destruct (Stop_frame _ _ _ HS) as (Hch2 & Hm2 & _). simplify_eq.
    split; [by rewrite Hch2, Hch1|by rewrite Hm2, Hm1].
  - simplify_eq. split; [by rewrite Hch1|by rewrite Hm1].
Qed.

(** Closed channels under the calls. *)
Lemma closed_stay_closed_same (w w' : World) :
  chans w' = chans w -> closed_stay_closed w w'.
Proof. intros Hc c. by rewrite Hc. Qed.

Lemma closed_stay_closed_trans (w1 w2 w3 : World) :
  closed_stay_closed w1 w2 -> closed_stay_closed w2 w3 -> closed_stay_closed w1 w3.
Proof. intros H1 H2 c Hc. by apply H2, H1. Qed.

Lemma closed_stay_closed_insert (w w' : World) (c0 : nat) (k0 k1 : chan) :
  chans w !! c0 = Some k0 ->
  k0 <> {| closed := true; sendq := [] |} ->
  chans w' = <[c0 := k1]> (chans w) ->
  closed_stay_closed w w'.
Proof.
  intros Hk Hne Hc c Hcl. rewrite Hc.
  destruct (decide (c0 = c)) as [->|Hn]; [congruence|].
  by rewrite list_lookup_insert_ne.
Qed.

Lemma stable_bind {A B : Type} (R : World -> World -> Prop)
    (m : M A) (k : A -> M B) :
  (forall w1 w2 w3, R w1 w2 -> R w2 w3 -> R w1 w3) ->
  stable R m -> (forall a, stable R (k a)) -> stable R (bind m k).
Proof.
  intros Htrans Hm Hk w. rewrite final_world_bind.
  specialize (Hm w). destruct (m w) as [a w1|why w1|w1]; simpl in Hm; [|done..].
  eapply Htrans; [done|apply Hk].
Qed.

Lemma stable_closed_ret {A : Type} (a : A) : stable closed_stay_closed (ret a).
Proof. by intros w c. Qed.

Lemma GetOrCreateFixApp_closed {App : Type}
    (role store log : string) (app : App) (path : string) :
  stable closed_stay_closed (GetOrCreateFixApp role store log app path).
Proof.
  intros w. apply closed_stay_closed_same.
  destruct (GetOrCreateFixApp_cases role store log app path w)
    as (r & w' & -> & Hch & _). done.
Qed.

Lemma Start_closed (f : nat) : stable closed_stay_closed (Start f).
Proof.
  intros w. apply closed_stay_closed_same.
  destruct (Start f w) as [err w'|why w'|w'] eqn:HS; simpl.
  - by destruct (Start_frame _ _ _ _ HS).
  - unfold Start in HS. repeat case_match; by simplify_eq.
  - unfold Start in HS. repeat case_match; by simplify_eq.
Qed.

Lemma Stop_closed (f : nat) : stable closed_stay_closed (Stop f).
Proof.
  intros w. apply closed_stay_closed_same.
  destruct (Stop f w) as [[] w'|why w'|w'] eqn:HS; simpl.
  - by destruct (Stop_frame _ _ _ HS).
  - unfold Stop in HS. repeat case_match; by simplify_eq.
  - unfold Stop in HS. repeat case_match; by simplify_eq.
Qed.

Lemma NewQuickfixEvent_closed (id : SessionID) (t : string) (m : option nat) :
  stable closed_stay_closed (NewQuickfixEvent id t m).
Proof.
  intros w. apply closed_stay_closed_same.
  unfold NewQuickfixEvent. by repeat case_match.
Qed.

Lemma chan_make_closed : stable closed_stay_closed chan_make.
Proof. intros w c Hc. simpl. by apply lookup_app_l_Some. Qed.

Lemma chan_send_closed (ch : option nat) (e : quickfixEvent) :
  stable closed_stay_closed (chan_send ch e).
Proof.
  intros w. unfold chan_send.
  destruct ch as [c0|]; [|by intros c].
  destruct (chans w !! c0) as [k0|] eqn:Hk; [|by intros c].
  destruct (closed k0) eqn:Hcl; [by intros c|]. simpl.
  eapply closed_stay_closed_insert; [done| |done].
  intros ->. done.
Qed.

Lemma chan_close_closed (ch : option nat) : stable closed_stay_closed (chan_close ch).
Proof.
  intros w. unfold chan_close.
  destruct ch as [c0|]; [|by intros c].
  destruct (chans w !! c0) as [k0|] eqn:Hk; [|by intros c].
  destruct (closed k0) eqn:Hcl; [by intros c|].
  assert (Hne : k0 <> {| closed := true; sendq := [] |}) by (intros ->; done).
  destruct (sendq k0); simpl;
    (eapply closed_stay_closed_insert; [done|done|done]).
Qed.

Lemma Read_closed (q : quickfixInput) (ctx : option error) (pick : bool) :
  stable closed_stay_closed (Read q ctx pick).
Proof.
  intros w. unfold Read.
  destruct (eventChan q) as [c0|]; [|by intros c].
  destruct (chans w !! c0) as [k0|] eqn:Hk; [|by intros c].
  destruct (sendq k0) as [|ev rest] eqn:Hq.
  - apply closed_stay_closed_same. by repeat case_match.
  - assert (Hne : k0 <> {| closed := true; sendq := [] |}) by (intros ->; done).
    repeat case_match; simpl; try (by intros c);
      (eapply closed_stay_closed_insert; [done|done|done]).
Qed.

Lemma callback_closed {A : Type} (q : quickfixInput) (id : SessionID)
    (t : string) (m : option nat) (k : unit -> M A) :
  (forall u, stable closed_stay_closed (k u)) ->
  stable closed_stay_closed
    (bind (NewQuickfixEvent id t m)
          (fun event => bind (chan_send (eventChan q) event) k)).
Proof.
  intros Hk. apply stable_bind;
    [apply closed_stay_closed_trans|apply NewQuickfixEvent_closed|].
  intros ev. apply stable_bind;
    [apply closed_stay_closed_trans|apply chan_send_closed|done].
Qed.

Lemma session_callback_closed (q : quickfixInput) (id : SessionID)
    (t : string) (m : option nat) :
  stable closed_stay_closed
    (bind (NewQuickfixEvent id t m)
          (fun event => chan_send (eventChan q) event)).
Proof.
  apply stable_bind;
    [apply closed_stay_closed_trans|apply NewQuickfixEvent_closed|].
  intros ev. apply chan_send_closed.
Qed.

Lemma after_closed (c : Call) (w : World) : closed_stay_closed w (after c w).
Proof.
  destruct c as [a ms l p|f|f|q|q ctx pick|q|q id|q id|q id
                 |q m id|q m id|q m id|q m id]; simpl.
  - apply GetOrCreateFixApp_closed.
  - apply Start_closed.
  - apply Stop_closed.
  - unfold Connect.
    apply stable_bind;
      [apply closed_stay_closed_trans|apply GetOrCreateFixApp_closed|].
    intros [f|e]; [|apply stable_closed_ret].
    apply stable_bind; [apply closed_stay_closed_trans|apply chan_make_closed|].
    intros c. apply stable_bind;
      [apply closed_stay_closed_trans|apply Start_closed|].
    intros _. apply stable_closed_ret.
  - apply Read_closed.
  - unfold Close.
    apply stable_bind; [apply closed_stay_closed_trans|apply chan_close_closed|].
    intros _. apply stable_bind;
      [apply closed_stay_closed_trans|apply GetOrCreateFixApp_closed|].
    intros [f|e]; [|apply stable_closed_ret].
    apply stable_bind; [apply closed_stay_closed_trans|apply Stop_closed|].
    intros _. apply stable_closed_ret.
  - unfold OnCreate.
    destruct (Settings_SessionSettings (settings q) id) as [session|]; [|by intros c].
    destruct (OnCreate_app q id session) as [qa|e]; [|by intros c].
    destruct (OnCreate_transport qa id session) as [qt|e]; [|by intros c].
    exact (callback_closed qt id createEvent None (fun _ => ret qt)
             (fun _ => stable_closed_ret qt) w).
  - exact (session_callback_closed q id logonEvent None w).
  - exact (session_callback_closed q id logoutEvent None w).
  - exact (session_callback_closed q id toAdminEvent m w).
  - exact (callback_closed q id toAppEvent m (fun _ => ret None)
             (fun _ => stable_closed_ret None) w).
  - exact (callback_closed q id fromAdminEvent m (fun _ => ret None)
             (fun _ => stable_closed_ret None) w).
  - exact (callback_closed q id fromAppEvent m (fun _ => ret None)
             (fun _ => stable_closed_ret None) w).
Qed.

Lemma reachable_closed (w w' : World) : rtc follows w w' -> closed_stay_closed w w'.
Proof.
  induction 1 as [|w w1 w' [c ->] _ IH]; [by intros c|].
  eapply closed_stay_closed_trans; [apply after_closed|done].
Qed.

(** X8: once [Close] has returned, every later [Close] of the same
    adapter, after any sequence of calls, panics on the closed channel
    before it reaches the handle, leaving the world as it found it. *)
Theorem X8_second_Close_panics
    (q : quickfixInput) (w w' w'' : World) (r : option error) :
  Close q w = Done r w' ->
  rtc follows w' w'' ->
  Close q w'' = Panic "close of closed channel" w''.
Proof.
  intros H Hreach. destruct (Close_Done_view _ _ _ _ H) as (c & Hq & Hch & _).
  apply (reachable_closed _ _ Hreach) in Hch.
  unfold Close, bind, chan_close. by rewrite Hq, Hch.
Qed.

(** X9: an adapter as the constructor builds it is not connected: [Read]
    returns the not-connected error and changes nothing, [Close] panics
    on the nil channel, and a callback of the engine parks for ever on
    it. *)
Theorem X9_adapter_before_Connect
    (conf : string -> result string) (q : quickfixInput) (w : World) :
  quickfixInputFromParsed conf = Ok q ->
  (forall ctx pick,
     Read q ctx pick w = Done (q, (None, None, Some ErrNotConnected)) w) /\
  Close q w = Panic "close of nil channel" w /\
  (forall id, OnLogon q id w = Blocked w) /\
  (forall id, OnLogout q id w = Blocked w).
Proof.
  intros Hc.
  assert (Hq : eventChan q = None).
  { unfold quickfixInputFromParsed in Hc. repeat case_match; by simplify_eq. }
  split; [intros ctx pick; unfold Read; by rewrite Hq|].
  split; [unfold Close, bind, chan_close; by rewrite Hq|].
  split; intros id; unfold OnLogon, OnLogout, bind, NewQuickfixEvent, chan_send;
    by rewrite Hq.
Qed.

(** X10: once [Close] has returned, every callback of the engine on
    that adapter, after any sequence of calls, panics with a send on the
    closed channel: the session callbacks at once, the message callbacks
    after copying a message that is allocated. *)
Theorem X10_callbacks_after_Close_panic
    (q : quickfixInput) (w w' w'' : World) (r : option error) (id : SessionID) :
  Close q w = Done r w' ->
  rtc follows w' w'' ->
  OnLogon q id w'' = Panic "send on closed channel" w'' /\
  OnLogout q id w'' = Panic "send on closed channel" w'' /\
  forall (src : nat) (d : MessageData),
    messages w'' !! src = Some d ->
    exists w3,
      ToAdmin q (Some src) id w'' = Panic "send on closed channel" w3 /\
      ToApp q (Some src) id w'' = Panic "send on closed channel" w3 /\
      FromAdmin q (Some src) id w'' = Panic "send on closed channel" w3 /\
      FromApp q (Some src) id w'' = Panic "send on closed channel" w3.
Proof.
  intros H Hreach. destruct (Close_Done_view _ _ _ _ H) as (c & Hq & Hch & _).
  apply (reachable_closed _ _ Hreach) in Hch.
  split; [unfold OnLogon, bind, NewQuickfixEvent, chan_send; by rewrite Hq, Hch|].
  split; [unfold OnLogout, bind, NewQuickfixEvent, chan_send; by rewrite Hq, Hch|].
  intros src d Hsrc.
  pose proof (lookup_lt_Some _ _ _ Hsrc) as Hlt.
  eexists.
  unfold ToAdmin, ToApp, FromAdmin, FromApp, bind, NewQuickfixEvent, chan_send.
  simpl. rewrite lookup_app_l by done. rewrite Hsrc, Hq. simpl. rewrite Hch. simpl.
  by repeat split.
Qed.


(** ** Reading *)

(** X12: a [Read] whose context is done and whose [select] takes the
    context case returns the context's error and leaves the world as it
    is: the event parked on the channel is still there, and a [Read] with
    a live context takes exactly it, oldest first, reporting its kind and
    session identifier (or faulting in [ToJSON]). *)
Theorem X12_cancelled_Read_leaves_the_event
    (q : quickfixInput) (w : World) (c : nat) (k : chan)
    (ev : quickfixEvent) (rest : list quickfixEvent) (e : error) :
  eventChan q = Some c ->
  chans w !! c = Some k ->
  sendq k = ev :: rest ->
  Read q (Some e) false w = Done (q, (None, None, Some e)) w /\
  forall pick : bool,
    Read q None pick w =
      let w1 := set_chans (<[c := {| closed := closed k; sendq := rest |}]> (chans w)) w in
      match Message_ToJSON (message ev ≫= (messages w !!.)) true
                           (appDictionaries q ≫= (.!! sessionId ev)) with
      | None => Panic nil_dereference w1
      | Some json =>
        Done (q,
              (Some {| body := json;
                       meta := <["quickfix_event"%string := eventType ev]>
                                 (<["quickfix_session_id"%string :=
                                      SessionID_String (sessionId ev)]> ∅) |},
               Some ack_nil, None)) w1
      end.
Proof.
  intros Hq Hk Hs. split.
  - unfold Read. rewrite Hq, Hk, Hs. simpl. by rewrite andb_false_r.
  - intros pick. unfold Read. rewrite Hq, Hk, Hs. simpl.
    rewrite orb_true_r. done.
Qed.

(** A message callback on an idle channel parks its event; the next
    [Read] renders what the payload holds when it runs. *)
Lemma message_callback_then_Read
    (q : quickfixInput) (w : World) (c : nat) (id : SessionID)
    (t : string) (src : nat) (d : MessageData) :
  idle_channel q w c ->
  messages w !! src = Some d ->
  exists w1,
    bind (NewQuickfixEvent id t (Some src))
         (fun event => chan_send (eventChan q) event) w = Done tt w1 /\
    messages w1 !! length (messages w) = Some d /\
    forall (x : MessageData) (pick : bool),
    exists w2,
      Read q None pick
           (set_messages (<[length (messages w) := x]> (messages w1)) w1) =
        match Message_ToJSON (Some x) true (appDictionaries q ≫= (.!! SessionID_zero)) with
        | None => Panic nil_dereference w2
        | Some json =>
          Done (q,
                (Some {| body := json;
                         meta := <["quickfix_event"%string := t]>
                                   (<["quickfix_session_id"%string :=
                                        SessionID_String SessionID_zero]> ∅) |},
                 Some ack_nil, None)) w2
        end.
Proof.
  intros [Hq Hk] Hsrc.
  pose proof (lookup_lt_Some _ _ _ Hsrc) as Hlt.
  pose proof (lookup_lt_Some _ _ _ Hk) as Hltc.
  eexists. split; [|split].
  - unfold bind, NewQuickfixEvent, chan_send. simpl.
    rewrite lookup_app_l by done. rewrite Hsrc, Hq. simpl. rewrite Hk. simpl.
    reflexivity.
  - simpl. apply list_lookup_insert_eq. rewrite length_app. simpl. lia.
  - intros x pick. eexists. unfold Read. rewrite Hq. simpl.
    rewrite list_lookup_insert_eq by done. simpl.
    rewrite list_lookup_insert_eq
      by (rewrite length_insert, length_app; simpl; lia).
    simpl. reflexivity.
Qed.

(** X13: the body that [Read] returns is rendered when [Read] runs, from
    what the payload message holds then.  After each of the four message
    callbacks the payload (the message allocated by the callback) holds the
    fields of the engine's message; whatever it holds by the time of the
    [Read], as after a change of bytes it shares with the engine's buffer,
    is what [ToJSON] is given, and the metadata carries the callback's
    kind. *)
Theorem X13_Read_renders_the_payload_as_it_is_when_read
    (q : quickfixInput) (w : World) (c : nat) (id : SessionID)
    (src : nat) (d : MessageData) :
  idle_channel q w c ->
  messages w !! src = Some d ->
  let payload := length (messages w) in
  let delivered (t : string) (w1 : World) :=
    messages w1 !! payload = Some d /\
    forall (x : MessageData) (pick : bool),
    exists w2,
      Read q None pick (set_messages (<[payload := x]> (messages w1)) w1) =
        match Message_ToJSON (Some x) true (appDictionaries q ≫= (.!! SessionID_zero)) with
        | None => Panic nil_dereference w2
        | Some json =>
          Done (q,
                (Some {| body := json;
                         meta := <["quickfix_event"%string := t]>
                                   (<["quickfix_session_id"%string :=
                                        SessionID_String SessionID_zero]> ∅) |},
                 Some ack_nil, None)) w2
        end in
  (exists w1, ToAdmin q (Some src) id w = Done tt w1 /\ delivered toAdminEvent w1) /\
  (exists w1, ToApp q (Some src) id w = Done None w1 /\ delivered toAppEvent w1) /\
  (exists w1, FromAdmin q (Some src) id w = Done None w1 /\ delivered fromAdminEvent w1) /\
  (exists w1, FromApp q (Some src) id w = Done None w1 /\ delivered fromAppEvent w1).
Proof.
  intros Hi Hsrc payload delivered.
  assert (Hgen : forall t,
            exists w1,
              bind (NewQuickfixEvent id t (Some src))
                   (fun event => chan_send (eventChan q) event) w = Done tt w1 /\
              delivered t w1)
    by (intros t; by apply (message_callback_then_Read q w c id t src d)).
  assert (Hret : forall t w1,
            bind (NewQuickfixEvent id t (Some src))
                 (fun event => chan_send (eventChan q) event) w = Done tt w1 ->
            bind (NewQuickfixEvent id t (Some src))
                 (fun event => bind (chan_send (eventChan q) event)
                                    (fun _ => ret (@None error))) w = Done None w1).
  { intros t w1. unfold bind, ret.
    destruct (NewQuickfixEvent id t (Some src) w) as [ev w0| |]; [|done..].
    destruct (chan_send (eventChan q) ev w0) as [[] w0'| |]; [|done..].
    by intros [= ->]. }
  split; [exact (Hgen toAdminEvent)|].
  split; [destruct (Hgen toAppEvent) as (w1 & H1 & H2); exists w1; split;
          [by apply Hret|done]|].
  split; [destruct (Hgen fromAdminEvent) as (w1 & H1 & H2); exists w1; split;
          [by apply Hret|done]|].
  destruct (Hgen fromAppEvent) as (w1 & H1 & H2). exists w1. split;
    [by apply Hret|done].
Qed.

(** ** Session creation *)

(** X14: for an adapter whose dictionary maps are nil, a dictionary that
    is not declared or does not parse is no fault: [OnCreate] leaves the
    adapter as it is and sends the [create] event. *)
Theorem X14_OnCreate_without_a_parsed_dictionary
    (q : quickfixInput) (id : SessionID) (session : gmap string string)
    (w : World) :
  no_dictionaries q ->
  Settings_SessionSettings (settings q) id = Some session ->
  (forall file, session !! "DataDictionary"%string = Some file ->
     exists e, datadictionary_Parse file = Err e) ->
  (forall file, session !! "TransportDataDictionary"%string = Some file ->
     exists e, datadictionary_Parse file = Err e) ->
  OnCreate q id w =
    bind (chan_send (eventChan q) (mkEvent SessionID_zero createEvent None))
         (fun _ => ret q) w.
Proof.
  intros Hnd Hs Happ Htr.
  assert (Ha : OnCreate_app q id session = Ok q).
  { unfold OnCreate_app.
    destruct (session !! "DataDictionary"%string) as [file|] eqn:Hf; [|done].
    destruct (Happ file eq_refl) as [e ->]. done. }
  assert (Ht : OnCreate_transport q id session = Ok q).
  { unfold OnCreate_transport.
    destruct (session !! "TransportDataDictionary"%string) as [file|] eqn:Hf; [|done].
    destruct (Htr file eq_refl) as [e ->]. done. }
  unfold OnCreate. rewrite Hs, Ha, Ht. done.
Qed.

(** X15: a [TransportDataDictionary] that parses is enough for the fault:
    also when no [DataDictionary] is declared, or it does not parse,
    [OnCreate] panics on the assignment into the nil transport map and
    sends nothing. *)
Theorem X15_transport_dictionary_alone_faults
    (q : quickfixInput) (id : SessionID) (session : gmap string string)
    (file : string) (dict : DataDictionary) (w : World) :
  no_dictionaries q ->
  Settings_SessionSettings (settings q) id = Some session ->
  (forall f, session !! "DataDictionary"%string = Some f ->
     exists e, datadictionary_Parse f = Err e) ->
  session !! "TransportDataDictionary"%string = Some file ->
  datadictionary_Parse file = Ok dict ->
  OnCreate q id w = Panic "assignment to entry in nil map" w.
Proof.
  intros [Hna Hnt] Hs Happ Hf Hp.
  assert (Ha : OnCreate_app q id session = Ok q).
  { unfold OnCreate_app.
    destruct (session !! "DataDictionary"%string) as [f|] eqn:Hd; [|done].
    destruct (Happ f eq_refl) as [e ->]. done. }
  unfold OnCreate. rewrite Hs, Ha. unfold OnCreate_transport.
  by rewrite Hf, Hp, Hnt.
Qed.

(** ** Connecting *)

(** X16: a [Connect] that returns an error is the failure of
    [GetOrCreateFixApp]; it leaves the adapter as it was, makes no
    channel, builds no engine, makes no call into one and leaves the
    registry alone. *)
Theorem X16_failed_Connect_changes_nothing
    (q q' : quickfixInput) (w w' : World) (e : error) :
  Connect q w = Done (q', Some e) w' ->
  GetOrCreateFixApp (appType q) (storeType q) (logType q) q (config q) w
    = Done (Err e) w' /\
  q' = q /\
  fixappstore w' = fixappstore w /\
  engines w' = engines w /\
  chans w' = chans w /\
  trace w' = trace w.
Proof.
  unfold Connect, bind, ret, chan_make. intros H.
  destruct (GetOrCreateFixApp_cases (appType q) (storeType q) (logType q) q
              (config q) w) as (r & w0 & Hg & Hch & _ & Htr & Hcase).
  rewrite Hg in H. destruct r as [f|e0].
  { destruct (Start f _); by simplify_eq. }
  simplify_eq. split; [done|]. split; [done|].
  destruct Hcase as [->|[(e' & chk & _ & Hr & _ & He)|(chk & h & ? & _)]];
    [done|done|done].
Qed.

(** X17: a handle that is started and has lost its engine (what the last
    [Stop] leaves) is never given one again.  After any sequence of calls,
    [Connect] for its file returns no error, builds no engine and makes no
    call into one: it only makes its channel. *)
Theorem X17_stopped_engine_is_never_restarted
    (q : quickfixInput) (w w' : World) (chk : list byte) (f : nat) (h : fixapp) :
  createChecksum (config q) = Ok chk ->
  fixappstore w !! string_of_list_byte chk = Some f ->
  fixapps w !! f = Some h ->
  state h = fixappstatestarted ->
  acceptor h = None ->
  initiator h = None ->
  rtc follows w w' ->
  exists w'' h'',
    Connect q w' = Done (with_eventChan (Some (length (chans w'))) q, None) w'' /\
    trace w'' = trace w' ++ [ChanMake (length (chans w'))] /\
    engines w'' = engines w' /\
    fixapps w'' !! f = Some h'' /\
    acceptor h'' = None /\ initiator h'' = None.
Proof.
  intros Hc Hl Hf Hs Ha Hi Hreach.
  destruct (reachable_ages _ _ Hreach) as (Hsub & Hh & _).
  destruct (Hh f h Hf) as (h' & Hf' & (_ & Hs' & Ha' & Hi')).
  pose proof (lookup_weaken _ _ _ _ Hl Hsub) as Hl'.
  destruct (Connect_registered q w' chk f h' Hc Hl' Hf')
    as (w'' & Hconn & _ & He & _ & Hf'' & Htr).
  exists w''. eexists. split; [done|]. split; [by apply Htr, Hs'|].
  split; [done|]. split; [done|]. simpl.
  split; [destruct Ha'; congruence|destruct Hi'; congruence].
Qed.

Lemma Stop_other_handles (f : nat) (w w' : World) :
  Stop f w = Done tt w' ->
  forall g, g <> f -> fixapps w' !! g = fixapps w !! g.
Proof.
  unfold Stop. intros H g Hg.
  repeat case_match; simplify_eq; simpl; by rewrite list_lookup_insert_ne.
Qed.

(** ** [Close] looks the handle up by reading the file again *)

(** X18: when the configuration file cannot be opened at the time of
    [Close], [Close] has already closed the channel; it returns the error
    and neither stops nor releases the handle: registry, handles and
    engines are as before. *)
Theorem X18_Close_with_unreadable_file_releases_nothing
    (q : quickfixInput) (w : World) (c : nat) (e : error) :
  idle_channel q w c ->
  os_Open (config q) = Err e ->
  exists w',
    Close q w = Done (Some ("failed to open config file: " ++ e)%string) w' /\
    trace w' = trace w ++ [ChanClose c] /\
    chans w' !! c = Some {| closed := true; sendq := [] |} /\
    fixappstore w' = fixappstore w /\
    fixapps w' = fixapps w /\
    engines w' = engines w.
Proof.
  intros [Hq Hk] Ho.
  pose proof (lookup_lt_Some _ _ _ Hk) as Hlt.
  unfold Close, bind, ret, chan_close. rewrite Hq, Hk. simpl.
  unfold GetOrCreateFixApp. rewrite (createChecksum_open_error _ _ Ho).
  eexists. split; [reflexivity|]. simpl.
  split; [done|]. split; [by apply list_lookup_insert_eq|done].
Qed.

(** X19: [Close] gets its handle from [GetOrCreateFixApp], which creates.
    For an application type that is neither [acceptor] nor [initiator] (no
    constructor runs for it): when the checksum of the adapter's file is
    not registered (the file no longer holds the bytes it held at
    [Connect]) and [Close] returns no error, it has registered a new
    handle without engine, and [Stop] on that stopped handle has only
    counted down to -1; no engine is built or stopped and every handle
    that existed is as it was. *)
Theorem X19_Close_for_unregistered_checksum_registers_a_handle
    (q : quickfixInput) (w w' : World) (c : nat) (chk : list byte) :
  appType q <> acceptorType ->
  appType q <> initiatorType ->
  idle_channel q w c ->
  createChecksum (config q) = Ok chk ->
  fixappstore w !! string_of_list_byte chk = None ->
  Close q w = Done None w' ->
  exists h,
    fixappstore w' = <[string_of_list_byte chk := length (fixapps w)]> (fixappstore w) /\
    fixapps w' !! length (fixapps w) = Some h /\
    acceptor h = None /\ initiator h = None /\
    state h = fixappstatestopped /\
    refcount h = (-1)%Z /\
    engines w' = engines w /\
    trace w' = trace w ++ [ChanClose c] /\
    forall g x, fixapps w !! g = Some x -> fixapps w' !! g = Some x.
Proof.
  intros Hna Hni [Hq Hk] Hc Hnone HC.
  unfold Close, bind, ret, chan_close in HC. rewrite Hq, Hk in HC. simpl in HC.
  set (wc := emit _ _) in HC.
  destruct (GetOrCreateFixApp_cases (appType q) (storeType q) (logType q) q
              (config q) wc) as (r & w0 & Hg & _ & _ & Htr0 & Hcase).
  rewrite Hg in HC. destruct r as [f|e]; [|done].
  destruct (GetOrCreateFixApp_registers _ _ _ _ _ _ _ _ Hg) as (chk' & Hc' & Hl0 & _).
  assert (chk' = chk) by congruence. subst chk'.
  destruct Hcase as [->|[(e' & k & ? & _)|(k & h & Hr & Hkc & _ & Hst & Hh & Hck & Hs & Hrc & Ha & Hi & He)]];
    [subst wc; simpl in Hl0; congruence|done|].
  assert (k = chk) by congruence. subst k. simplify_eq.
  rewrite decide_False in Ha by done. rewrite decide_False in Hi by done.
  rewrite decide_False in Hi by done. rewrite decide_False in He by tauto.
  assert (Hf0 : fixapps w0 !! length (fixapps w) = Some h)
    by (rewrite Hh; simpl; by rewrite lookup_app_r, Nat.sub_diag).
  destruct (Stop_shared w0 _ h Hf0) as (w1 & HS & Hf1 & Hr1 & Htr1); [by left|].
  destruct (Stop_frame _ _ _ HS) as (_ & _ & He1).
  rewrite HS in HC. injection HC as <-.
  rewrite Hrc in Hf1. change (int_decr 0) with (-1)%Z in Hf1.
  eexists. split; [by rewrite Hr1, Hst|]. split; [exact Hf1|].
  split; [done|]. split; [done|]. split; [done|]. split; [done|].
  split; [by rewrite He1, He|].
  split; [by rewrite Htr1, Htr0|].
  intros g x Hg'.
  pose proof (lookup_lt_Some _ _ _ Hg') as Hlt.
  rewrite (Stop_other_handles _ _ _ HS) by lia.
  rewrite Hh. by apply lookup_app_l_Some.
Qed.

(** ** A handle without engine behind a connected adapter *)

(** X20: with an application type that is neither [acceptor] nor
    [initiator] and a checksum not yet registered, a [Connect] that
    reports no error has started nothing: it built no engine, made no
    call into one, registered a handle without engine that is marked
    started and counted once, and gave the adapter its channel. *)
Theorem X20_Connect_with_unknown_application_type_succeeds
    (q q' : quickfixInput) (w w' : World) (chk : list byte) :
  appType q <> acceptorType ->
  appType q <> initiatorType ->
  createChecksum (config q) = Ok chk ->
  fixappstore w !! string_of_list_byte chk = None ->
  Connect q w = Done (q', None) w' ->
  q' = with_eventChan (Some (length (chans w))) q /\
  engines w' = engines w /\
  trace w' = trace w ++ [ChanMake (length (chans w))] /\
  exists h,
    fixapps w' !! length (fixapps w) = Some h /\
    fixappstore w' !! string_of_list_byte chk = Some (length (fixapps w)) /\
    acceptor h = None /\ initiator h = None /\
    state h = fixappstatestarted /\ refcount h = 1%Z.
Proof.
  intros Hna Hni Hc Hnone Hconn.
  unfold Connect, bind, ret, chan_make in Hconn.
  destruct (GetOrCreateFixApp_cases (appType q) (storeType q) (logType q) q
              (config q) w) as (r0 & w0 & Hg & Hch0 & _ & Htr0 & Hcase).
  rewrite Hg in Hconn. destruct r0 as [f|e]; [|by simplify_eq].
  destruct (GetOrCreateFixApp_registers _ _ _ _ _ _ _ _ Hg) as (chk' & Hc' & Hl0 & _).
  assert (chk' = chk) by congruence. subst chk'.
  destruct Hcase as [->|[(e' & k & ? & _)|(k & h & Hr & Hkc & _ & Hst & Hh & Hck & Hs & Hrc & Ha & Hi & He)]];
    [congruence|done|].
  assert (k = chk) by congruence. subst k. simplify_eq.
  rewrite decide_False in Ha by done. rewrite decide_False in Hi by done.
  rewrite decide_False in Hi by done. rewrite decide_False in He by tauto.
  assert (Hf0 : fixapps w0 !! length (fixapps w) = Some h)
    by (rewrite Hh; by rewrite lookup_app_r, Nat.sub_diag).
  set (wc := emit _ _) in Hconn.
  assert (HS : Start (length (fixapps w)) wc
               = Done (Some "cannot start uninitialized fixapp"%string)
                      (set_fixapps
                         (<[length (fixapps w) :=
                              with_refcount (int_incr (refcount h))
                                (with_state fixappstatestarted h)]> (fixapps wc)) wc)).
  { unfold Start. simpl. rewrite Hf0, Ha, Hi.
    destruct (decide _) as [_|Hn]; [done|].
    exfalso. apply Hn. rewrite Hs. discriminate. }
  rewrite HS in Hconn. simplify_eq.
  split; [by rewrite Hch0|]. split; [done|].
  split; [simpl; by rewrite Htr0, Hch0|].
  eexists. split.
  { simpl. apply list_lookup_insert_eq. by eapply lookup_lt_Some. }
  simpl. split; [done|]. by rewrite Hrc.
Qed.

(** ** Handles do not interfere *)

(** X21: [Start] and [Stop] on one handle leave every other handle, the
    registry, the channels and the messages as they were. *)
Theorem X21_Start_and_Stop_touch_one_handle
    (f : nat) (w : World) :
  let untouched (w' : World) :=
    fixappstore w' = fixappstore w /\
    chans w' = chans w /\
    messages w' = messages w /\
    length (fixapps w') = length (fixapps w) /\
    forall g, g <> f -> fixapps w' !! g = fixapps w !! g in
  untouched (final_world (Start f w)) /\ untouched (final_world (Stop f w)).
Proof.
  intros untouched. unfold untouched. split.
  - unfold Start. destruct (fixapps w !! f) as [h|] eqn:Hf; [|done].
    destruct (decide (state h <> fixappstatestarted));
      [destruct (acceptor h), (initiator h)|]; simpl;
      (split; [done|]; split; [done|]; split; [done|];
       split; [by rewrite length_insert|];
       intros g Hg; by rewrite list_lookup_insert_ne).
  - unfold Stop. destruct (fixapps w !! f) as [h|] eqn:Hf; [|done].
    destruct (decide _); [|destruct (acceptor h), (initiator h)]; simpl;
      (split; [done|]; split; [done|]; split; [done|];
       split; [by rewrite length_insert|];
       intros g Hg; by rewrite list_lookup_insert_ne).
Qed.

End Lifecycle.

(** * Further runs on the stand-in library *)

#[local] Existing Instance Double.ext.

(** From the first registration through a connect, a close and a second
    connect. *)
Lemma Scene_reach_reconnected :
  rtc follows Double.world_registered Scene.world_reconnected.
Proof.
  apply (rtc_l _ _ Double.world_started);
    [exists (CallConnect (Double.input0 "acceptor")); reflexivity|].
  apply (rtc_l _ _ Double.world_closed);
    [exists (CallClose Double.input_connected); reflexivity|].
  apply rtc_once. exists (CallConnect (Double.input0 "acceptor")). reflexivity.
Qed.

Lemma Scene_Close :
  Close Double.input_connected Double.world_started = Done None Double.world_closed.
Proof. reflexivity. Qed.

(** The entry made for [fix.cfg] serves [copy.cfg], which holds the same
    bytes, after the adapter was connected, closed and connected again. *)
Lemma X1_witness :
  GetOrCreateFixApp "initiator" "file" "file" tt "copy.cfg" Scene.world_reconnected
    = Done (Ok 0) Scene.world_reconnected.
Proof.
  apply (@X1_registry_entry_is_permanent Double.ext unit
           "initiator" "file" "file" tt "copy.cfg" Double.cfg_bytes
           Double.world_registered Scene.world_reconnected 0);
    [reflexivity|exact Scene_reach_reconnected|reflexivity].
Defined.

(** A handle registered for the application type [server] (no engine is
    built for it): the second adapter connects to it. *)
Lemma X2_witness :
  exists (h : fixapp) (w' : World),
    fixapps Scene.world_server !! 0 = Some h /\
    string_of_list_byte (chksum h) = string_of_list_byte Double.cfg_bytes /\
    Connect Scene.input_copy Scene.world_server
      = Done (with_eventChan (Some 0) Scene.input_copy, None) w' /\
    fixappstore w' = fixappstore Scene.world_server /\
    engines w' = 0.
Proof.
  apply (@X2_Connect_for_registered_checksum_returns Double.ext Scene.input_copy
           Double.world0 Scene.world_server Double.cfg_bytes 0);
    [reflexivity| |reflexivity|reflexivity].
  apply rtc_once.
  exists (CallGetOrCreateFixApp "server" "memory" "screen" "fix.cfg").
  reflexivity.
Defined.

(** [fix.cfg] and the one byte read of [broken.cfg] get handles 0 and 1. *)
Lemma X3_witness :
  (GetOrCreateFixApp "acceptor" "memory" "screen" tt "fix.cfg" Double.world0
     = Done (Ok 0) Double.world_registered /\
   GetOrCreateFixApp "acceptor" "memory" "screen" tt "broken.cfg"
       Double.world_registered
     = Done (Ok 1)
            (final_world (GetOrCreateFixApp "acceptor" "memory" "screen" tt
                            "broken.cfg" Double.world_registered))) /\
  0 <> 1.
Proof.
  split; [split; reflexivity|].
  apply (@X3_different_checksums_different_handles Double.ext unit unit
           "acceptor" "memory" "screen" tt "fix.cfg"
           "acceptor" "memory" "screen" tt "broken.cfg"
           Double.cfg_bytes [x5b]
           Double.world0 Double.world0 Double.world_registered
           (final_world (GetOrCreateFixApp "acceptor" "memory" "screen" tt
                           "broken.cfg" Double.world_registered)) 0 1);
    [reflexivity|apply rtc_refl|reflexivity|reflexivity|discriminate
    |reflexivity|reflexivity].
Defined.

(** A store kind that does not exist: the call fails and nothing is
    registered. *)
Lemma X4_witness :
  GetOrCreateFixApp "acceptor" "redis" "screen" tt "fix.cfg" Double.world0
    = Done (Err "cannot create message store of type redis"%string)
           (set_fixapps [new_fixapp Double.cfg_bytes] Double.world0) /\
  fixappstore (set_fixapps [new_fixapp Double.cfg_bytes] Double.world0) = ∅.
Proof.
  split; [reflexivity|].
  apply (@X4_failed_GetOrCreateFixApp_changes_nothing Double.ext unit
           "acceptor" "redis" "screen" tt "fix.cfg" Double.world0
           (set_fixapps [new_fixapp Double.cfg_bytes] Double.world0)
           "cannot create message store of type redis"%string).
  reflexivity.
Defined.

(** The application type [server]: a handle without engine is registered
    and its [Start] reports that it is uninitialized. *)
Lemma X5_witness :
  engines (final_world (GetOrCreateFixApp "server" "memory" "screen" tt "fix.cfg"
                          Double.world0)) = 0 /\
  fixappstore (final_world (GetOrCreateFixApp "server" "memory" "screen" tt
                              "fix.cfg" Double.world0))
    !! string_of_list_byte Double.cfg_bytes = Some 0 /\
  exists h w2 h2,
    fixapps (final_world (GetOrCreateFixApp "server" "memory" "screen" tt
                            "fix.cfg" Double.world0)) !! 0 = Some h /\
    acceptor h = None /\ initiator h = None /\
    Start 0 (final_world (GetOrCreateFixApp "server" "memory" "screen" tt
                            "fix.cfg" Double.world0))
      = Done (Some "cannot start uninitialized fixapp"%string) w2 /\
    trace w2 = [] /\
    fixapps w2 !! 0 = Some h2 /\
    state h2 = fixappstatestarted /\
    refcount h2 = 1%Z.
Proof.
  apply (@X5_unknown_application_type_registers_engineless_handle Double.ext unit
           "server" "memory" "screen" tt "fix.cfg" Double.cfg_bytes
           Double.world0 _ 0);
    [discriminate|discriminate|reflexivity|reflexivity|reflexivity].
Defined.

(** The second adapter connects to the handle of the first: one engine,
    started once, counted twice. *)
Lemma X6_witness :
  exists (f c2 : nat) (h1 h2 : fixapp) (w2 : World),
    fixappstore Double.world_started !! string_of_list_byte Double.cfg_bytes = Some f /\
    fixapps Double.world_started !! f = Some h1 /\
    refcount h1 = 1%Z /\
    Connect Scene.input_copy Double.world_started
      = Done (with_eventChan (Some c2) Scene.input_copy, None) w2 /\
    eventChan Double.input_connected <> Some c2 /\
    engines w2 = engines Double.world_started /\
    trace w2 = trace Double.world_started ++ [ChanMake c2] /\
    fixappstore w2 !! string_of_list_byte Double.cfg_bytes = Some f /\
    fixapps w2 !! f = Some h2 /\
    refcount h2 = 2%Z /\
    state h2 = fixappstatestarted /\
    acceptor h2 = acceptor h1 /\ initiator h2 = initiator h1.
Proof.
  apply (@X6_second_Connect_shares_the_engine Double.ext
           (Double.input0 "acceptor") Double.input_connected Scene.input_copy
           Double.world0 Double.world_started Double.cfg_bytes);
    reflexivity.
Defined.

(** Two closes of the shared handle: the first leaves the acceptor
    running, the second stops it. *)
Lemma X7_witness :
  exists w1 w2 : World,
    Close Double.input_connected Scene.world_shared = Done None w1 /\
    trace w1 = trace Scene.world_shared ++ [ChanClose 0] /\
    Close (with_eventChan (Some 1) Scene.input_copy) w1 = Done None w2 /\
    trace w2 = trace w1 ++ [ChanClose 1; AcceptorStop 0].
Proof.
  apply (@X7_only_the_last_Close_stops_the_engine Double.ext
           Double.input_connected (with_eventChan (Some 1) Scene.input_copy)
           Scene.world_shared Double.cfg_bytes 0 0 1 Scene.shared_twice);
    try reflexivity; try (split; reflexivity). lia.
Defined.

(** Closing the closed adapter again, after its file was reconnected. *)
Lemma X8_witness :
  Close Double.input_connected Scene.world_reconnected
    = Panic "close of closed channel" Scene.world_reconnected.
Proof.
  apply (@X8_second_Close_panics Double.ext Double.input_connected
           Double.world_started Double.world_closed Scene.world_reconnected None);
    [exact Scene_Close|].
  apply rtc_once. exists (CallConnect (Double.input0 "acceptor")). reflexivity.
Defined.

(** The adapter built from the configuration, before any [Connect]. *)
Lemma X9_witness :
  (forall ctx pick,
     Read (Double.input0 "acceptor") ctx pick Double.world0
       = Done (Double.input0 "acceptor", (None, None, Some ErrNotConnected))
              Double.world0) /\
  Close (Double.input0 "acceptor") Double.world0
    = Panic "close of nil channel" Double.world0 /\
  (forall id, OnLogon (Double.input0 "acceptor") id Double.world0
              = Blocked Double.world0) /\
  (forall id, OnLogout (Double.input0 "acceptor") id Double.world0
              = Blocked Double.world0).
Proof.
  apply (@X9_adapter_before_Connect Double.ext (Double.conf "acceptor")
           (Double.input0 "acceptor") Double.world0).
  reflexivity.
Defined.

(** A logon after the close panics, also once the file is reconnected. *)
Lemma X10_witness :
  OnLogon Double.input_connected "S1"%string Scene.world_reconnected
    = Panic "send on closed channel" Scene.world_reconnected.
Proof.
  apply (@X10_callbacks_after_Close_panic Double.ext Double.input_connected
           Double.world_started Double.world_closed Scene.world_reconnected
           None "S1"%string); [exact Scene_Close|].
  apply rtc_once. exists (CallConnect (Double.input0 "acceptor")). reflexivity.
Defined.


(** A cancelled read with a logon parked, then the read that takes it. *)
Lemma X12_witness :
  Read Double.input_connected (Some "context canceled"%string) false Scene.world_parked
    = Done (Double.input_connected, (None, None, Some "context canceled"%string))
           Scene.world_parked /\
  Read Double.input_connected None true Scene.world_parked
    = Done (Double.input_connected,
            (Some {| body := [];
                     meta := <["quickfix_event"%string := "logon"%string]>
                               (<["quickfix_session_id"%string := ""%string]> ∅) |},
             Some ack_nil, None)) Double.world_started.
Proof.
  destruct (@X12_cancelled_Read_leaves_the_event Double.ext Double.input_connected
              Scene.world_parked 0
              {| closed := false; sendq := [Scene.logon_event] |}
              Scene.logon_event [] "context canceled"%string
              eq_refl eq_refl eq_refl) as [Hcancel Hnext].
  split; [exact Hcancel|]. exact (Hnext true).
Defined.

(** [FromApp] with the engine's message: the payload is the message at
    address 1, and the read renders the bytes found there when it runs. *)
Lemma X13_witness :
  exists w1,
    FromApp Double.input_connected (Some 0) "S1"%string Double.world_message
      = Done None w1 /\
    messages w1 !! 1 = Some Double.engine_message /\
    forall (x : list byte) (pick : bool),
    exists w2,
      Read Double.input_connected None pick
           (set_messages (<[1 := x]> (messages w1)) w1)
        = Done (Double.input_connected,
                (Some {| body := x;
                         meta := <["quickfix_event"%string := "from_app"%string]>
                                   (<["quickfix_session_id"%string := ""%string]> ∅) |},
                 Some ack_nil, None)) w2.
Proof.
  destruct (@X13_Read_renders_the_payload_as_it_is_when_read Double.ext
              Double.input_connected Double.world_message 0 "S1"%string 0
              Double.engine_message (conj eq_refl eq_refl) eq_refl)
    as (_ & _ & _ & (w1 & Hfrom & Hpay & Hread)).
  exists w1. split; [exact Hfrom|]. split; [exact Hpay|exact Hread].
Defined.

(** Session [S2] declares a dictionary that does not parse: the create
    event is sent all the same. *)
Lemma X14_witness :
  OnCreate Scene.input_sessions "S2"%string Double.world_message
    = bind (chan_send (Some 0) (mkEvent ""%string createEvent None))
           (fun _ => ret Scene.input_sessions) Double.world_message.
Proof.
  apply (@X14_OnCreate_without_a_parsed_dictionary Double.ext
           Scene.input_sessions "S2"%string {[ "DataDictionary"%string := ""%string ]}
           Double.world_message).
  - split; reflexivity.
  - reflexivity.
  - intros file Hf. apply lookup_singleton_Some in Hf as [_ <-].
    by exists "empty dictionary"%string.
  - intros file Hf. by apply lookup_singleton_Some in Hf as [? _].
Defined.

(** Session [S3] declares only a transport dictionary. *)
Lemma X15_witness :
  OnCreate Scene.input_sessions "S3"%string Double.world_message
    = Panic "assignment to entry in nil map" Double.world_message.
Proof.
  apply (@X15_transport_dictionary_alone_faults Double.ext
           Scene.input_sessions "S3"%string
           {[ "TransportDataDictionary"%string := "FIXT11.xml"%string ]}
           "FIXT11.xml"%string "FIXT11.xml"%string Double.world_message).
  - split; reflexivity.
  - reflexivity.
  - intros f Hf. by apply lookup_singleton_Some in Hf as [? _].
  - reflexivity.
  - reflexivity.
Defined.

(** [Connect] with the store kind [redis] fails and leaves no channel. *)
Lemma X16_witness :
  Connect Scene.input_redis Double.world0
    = Done (Scene.input_redis,
            Some "cannot create message store of type redis"%string)
           (set_fixapps [new_fixapp Double.cfg_bytes] Double.world0) /\
  chans (set_fixapps [new_fixapp Double.cfg_bytes] Double.world0) = [] /\
  trace (set_fixapps [new_fixapp Double.cfg_bytes] Double.world0) = [].
Proof.
  assert (H : Connect Scene.input_redis Double.world0
              = Done (Scene.input_redis,
                      Some "cannot create message store of type redis"%string)
                     (set_fixapps [new_fixapp Double.cfg_bytes] Double.world0))
    by reflexivity.
  split; [exact H|].
  destruct (@X16_failed_Connect_changes_nothing Double.ext _ _ _ _ _ H)
    as (_ & _ & _ & _ & Hch & Htr).
  split; [exact Hch|exact Htr].
Defined.

(** After the close, a reconnect and another connect start nothing. *)
Lemma X17_witness :
  exists w'' h'',
    Connect Scene.input_copy Scene.world_reconnected
      = Done (with_eventChan (Some 2) Scene.input_copy, None) w'' /\
    trace w'' = trace Scene.world_reconnected ++ [ChanMake 2] /\
    engines w'' = 1 /\
    fixapps w'' !! 0 = Some h'' /\
    acceptor h'' = None /\ initiator h'' = None.
Proof.
  apply (@X17_stopped_engine_is_never_restarted Double.ext Scene.input_copy
           Double.world_closed Scene.world_reconnected Double.cfg_bytes 0
           (with_engines None None Double.started_once));
    try reflexivity.
  apply rtc_once. exists (CallConnect (Double.input0 "acceptor")). reflexivity.
Defined.

(** Closing while the file is gone: the channel is closed, the acceptor
    keeps running and the handle keeps its count. *)
Lemma X18_witness :
  exists w',
    Close Scene.input_gone Double.world_started
      = Done (Some "failed to open config file: no such file or directory"%string) w' /\
    trace w' = [ChanMake 0; AcceptorStart 0; ChanClose 0] /\
    chans w' !! 0 = Some {| closed := true; sendq := [] |} /\
    fixappstore w' = fixappstore Double.world_started /\
    fixapps w' = [Double.started_once] /\
    engines w' = 1.
Proof.
  apply (@X18_Close_with_unreadable_file_releases_nothing Double.ext
           Scene.input_gone Double.world_started 0
           "no such file or directory"%string);
    [split; reflexivity|reflexivity].
Defined.

(** Closing while the file reads as other bytes, with the application
    type [server]: a handle without engine is registered and counted down
    to -1, and the running acceptor is not stopped. *)
Lemma X19_witness :
  exists h,
    fixappstore (final_world (Close Scene.input_changed Double.world_started))
      = <[string_of_list_byte [x5b] := 1]> (fixappstore Double.world_started) /\
    fixapps (final_world (Close Scene.input_changed Double.world_started)) !! 1
      = Some h /\
    acceptor h = None /\ initiator h = None /\
    state h = fixappstatestopped /\
    refcount h = (-1)%Z /\
    engines (final_world (Close Scene.input_changed Double.world_started)) = 1 /\
    trace (final_world (Close Scene.input_changed Double.world_started))
      = [ChanMake 0; AcceptorStart 0; ChanClose 0] /\
    forall g x,
      fixapps Double.world_started !! g = Some x ->
      fixapps (final_world (Close Scene.input_changed Double.world_started)) !! g
        = Some x.
Proof.
  apply (@X19_Close_for_unregistered_checksum_registers_a_handle Double.ext
           Scene.input_changed Double.world_started
           (final_world (Close Scene.input_changed Double.world_started))
           0 [x5b]);
    [discriminate|discriminate|split; reflexivity|reflexivity|reflexivity
    |reflexivity].
Defined.

(** The application type [server]: [Connect] returns no error and the log
    holds the making of the channel alone. *)
Lemma X20_witness :
  Connect (Double.input0 "server") Double.world0
    = Done (with_eventChan (Some 0) (Double.input0 "server"), None)
           (final_world (Connect (Double.input0 "server") Double.world0)) /\
  engines (final_world (Connect (Double.input0 "server") Double.world0)) = 0 /\
  trace (final_world (Connect (Double.input0 "server") Double.world0))
    = [ChanMake 0].
Proof.
  split; [reflexivity|].
  destruct (@X20_Connect_with_unknown_application_type_succeeds Double.ext
              (Double.input0 "server")
              (with_eventChan (Some 0) (Double.input0 "server"))
              Double.world0
              (final_world (Connect (Double.input0 "server") Double.world0))
              Double.cfg_bytes)
    as (_ & He & Htr & _);
    [discriminate|discriminate|reflexivity|reflexivity|reflexivity|].
  split; [exact He|exact Htr].
Defined.
